(** * worker/schema.go: schema resolution over the cluster

    A shallow embedding of [worker/schema.go] (package [worker] of dgraph) and
    the properties of its local projector ([getSchema], [populateSchema]),
    its request partitioner ([addToSchemaMap]), its scatter/gather
    coordinator ([GetSchemaOverNetwork]) and its remote entry point
    ([grpcWorker.Schema]).

    Conventions of the embedding:
    - a Go [string] is a [string], a slice is a [list] (the [nil] slice and
      the empty slice are both [[]]; the code only ever takes [len] of them,
      ranges over them or appends to them);
    - a group id ([uint32]) is an [N]; the code compares group ids and uses
      them as map keys, it never does arithmetic on them;
    - [map[uint32]*pb.SchemaRequest] is a [gmap N SchemaRequest]; a key bound
      to a [nil] pointer behaves in [addToSchemaMap] like an absent key, so
      absence stands for both;
    - a Go result pair [(v, err)] is a pair [(v, option error)];
    - [groups()] and [schema.State()], the ambient singletons the file reads,
      are records of functions: one snapshot of the topology and of the
      catalog. *)

From stdpp Require Import base option list gmap strings fin_maps.
From Stdlib Require Import NArith.

Local Open Scope string_scope.
Local Open Scope list_scope.

(** ** Data model *)

Module api.

(** [api.SchemaNode] of the dgo protocol buffers. *)
Record SchemaNode := mkSchemaNode {
  Predicate : string;
  Type_ : string;
  Index : bool;
  Tokenizer : list string;
  Reverse : bool;
  Count : bool;
  List : bool;
  Upsert : bool;
  Lang : bool
}.

End api.

Module pb.

Record SchemaRequest := mkSchemaRequest {
  GroupId : N;
  Predicates : list string;
  Fields : list string
}.

Record SchemaResult := mkSchemaResult {
  Schema : list api.SchemaNode
}.

End pb.

(** Errors that flow through this file.  [errUnservedTablet] is declared in
    another file of package [worker], [ErrNoConnection] in package [conn];
    [Errorf_group gid] is
    [x.Errorf("This server doesn't serve group id: %v", gid)]; the two
    context errors are the values of [ctx.Err()]; [OtherError] stands for
    health-check and transport errors. *)
Inductive error :=
| errUnservedTablet
| ErrNoConnection
| Errorf_group (gid : N)
| Canceled
| DeadlineExceeded
| OtherError (msg : string).

(** [resultErr], the unit a lookup task sends back; both fields are
    nilable. *)
Record resultErr := mkResultErr {
  result : option pb.SchemaResult;
  err : option error
}.

(** [var emptySchemaResult pb.SchemaResult] *)
Definition emptySchemaResult : pb.SchemaResult := pb.mkSchemaResult [].

(** A [context.Context] as this file observes it: the value of
    [ctx.Err()]. *)
Record Context := mkContext { Err : option error }.

(** ** External collaborators *)

Module schema.

(** [schema.State()]: the schema catalog.  [TypeOf] is [None] when the Go
    function returns a non-nil error (schema not defined). *)
Record state (TypeID : Type) := mkState {
  Predicates : list string;
  TypeOf : string → option TypeID;
  IsIndexed : string → bool;
  TokenizerNames : string → list string;
  IsReversed : string → bool;
  HasCount : string → bool;
  IsList : string → bool;
  HasUpsert : string → bool;
  HasLang : string → bool
}.
Arguments mkState {TypeID}.
Arguments Predicates {TypeID}.
Arguments TypeOf {TypeID}.
Arguments IsIndexed {TypeID}.
Arguments TokenizerNames {TypeID}.
Arguments IsReversed {TypeID}.
Arguments HasCount {TypeID}.
Arguments IsList {TypeID}.
Arguments HasUpsert {TypeID}.
Arguments HasLang {TypeID}.

End schema.

(** [groups()]: the topology oracle.  [Leader] is [None] when the Go method
    returns a nil pool. *)
Record groupi (Pool : Type) := mkGroupi {
  ServesGroup : N → bool;
  ServesTablet : string → bool;
  BelongsTo : string → N;
  KnownGroups : list N;
  Leader : N → option Pool
}.
Arguments mkGroupi {Pool}.
Arguments ServesGroup {Pool}.
Arguments ServesTablet {Pool}.
Arguments BelongsTo {Pool}.
Arguments KnownGroups {Pool}.
Arguments Leader {Pool}.

(** The outcome of a call of [GetSchemaOverNetwork]: it returns its pair, it
    dereferences a nil [r.result], or it waits in [select] for ever. *)
Inductive outcome :=
| Return (schemaNodes : list api.SchemaNode) (e : option error)
| Panic
| Block.

(** What the scheduler decides at one [select] of the aggregation loop:
    [Recv k] delivers the message of the [k]-th outstanding task (counted
    modulo the number of outstanding tasks), [Done e] closes [ctx.Done()]
    with [ctx.Err() = e]. *)
Inductive event :=
| Recv (k : nat)
| Done (e : error).

(** ** The code *)

Section worker.

Context {TypeID Pool : Type}.

(** [types.TypeID.Name] *)
Variable Name : TypeID → string.
Variable State : schema.state TypeID.
Variable groups : groupi Pool.
(** [x.HealthCheck()] *)
Variable HealthCheck : option error.
(** [pb.NewWorkerClient(pl.Get()).Schema(ctx, s)]: the typed remote call,
    which yields a result or an error. *)
Variable remoteSchema : Pool → pb.SchemaRequest → pb.SchemaResult + error.
(** The order in which [for gid, s := range schemaMap] visits the entries
    of a map; Go leaves it unspecified. *)
Variable range : gmap N pb.SchemaRequest → list (N * pb.SchemaRequest).

(** One iteration of the [switch field] of [populateSchema]. *)
Definition populateField (attr : string) (typ : TypeID)
    (schemaNode : api.SchemaNode) (field : string) : api.SchemaNode :=
  let 'api.mkSchemaNode p t i tk r c l u lg := schemaNode in
  if String.eqb field "type" then
    api.mkSchemaNode p (Name typ) i tk r c l u lg
  else if String.eqb field "index" then
    api.mkSchemaNode p t (schema.IsIndexed State attr) tk r c l u lg
  else if String.eqb field "tokenizer" then
    if schema.IsIndexed State attr
    then api.mkSchemaNode p t i (schema.TokenizerNames State attr) r c l u lg
    else schemaNode
  else if String.eqb field "reverse" then
    api.mkSchemaNode p t i tk (schema.IsReversed State attr) c l u lg
  else if String.eqb field "count" then
    api.mkSchemaNode p t i tk r (schema.HasCount State attr) l u lg
  else if String.eqb field "list" then
    api.mkSchemaNode p t i tk r c (schema.IsList State attr) u lg
  else if String.eqb field "upsert" then
    api.mkSchemaNode p t i tk r c l (schema.HasUpsert State attr) lg
  else if String.eqb field "lang" then
    api.mkSchemaNode p t i tk r c l u (schema.HasLang State attr)
  else schemaNode.

(** [populateSchema]: [None] is the nil node.  The node starts as the zero
    value with [Predicate] set. *)
Definition populateSchema (attr : string) (fields : list string)
    : option api.SchemaNode :=
  match schema.TypeOf State attr with
  | None => None
  | Some typ =>
      let schemaNode :=
        api.mkSchemaNode attr "" false [] false false false false false in
      Some (foldl (populateField attr typ) schemaNode fields)
  end.

Definition defaultFields : list string :=
  ["type"; "index"; "tokenizer"; "reverse"; "count"; "list"; "upsert";
   "lang"].

(** The [for _, attr := range predicates] loop of [getSchema], threading
    [result.Schema]. *)
Fixpoint getSchema_loop (predicates fields : list string)
    (acc : list api.SchemaNode) : list api.SchemaNode :=
  match predicates with
  | [] => acc
  | attr :: rest =>
      if negb (ServesTablet groups attr) then getSchema_loop rest fields acc
      else match populateSchema attr fields with
           | Some schemaNode =>
               getSchema_loop rest fields (acc ++ [schemaNode])
           | None => getSchema_loop rest fields acc
           end
  end.

(** [getSchema]; its [ctx] only carries the trace span. *)
Definition getSchema (s : pb.SchemaRequest)
    : pb.SchemaResult * option error :=
  let predicates :=
    if bool_decide (0 < length (pb.Predicates s))
    then pb.Predicates s else schema.Predicates State in
  let fields :=
    if bool_decide (0 < length (pb.Fields s))
    then pb.Fields s else defaultFields in
  (pb.mkSchemaResult (getSchema_loop predicates fields []), None).

(** The first loop of [addToSchemaMap].  [s] points into the map, so the
    append is written back under [gid]. *)
Fixpoint addPredicates (schemaMap : gmap N pb.SchemaRequest)
    (fields : list string) (predicates : list string)
    : gmap N pb.SchemaRequest :=
  match predicates with
  | [] => schemaMap
  | attr :: rest =>
      let gid := BelongsTo groups attr in
      let s := match schemaMap !! gid with
               | Some s => s
               | None => pb.mkSchemaRequest gid [] fields
               end in
      addPredicates
        (<[gid := pb.mkSchemaRequest (pb.GroupId s)
                    (pb.Predicates s ++ [attr]) (pb.Fields s)]> schemaMap)
        fields rest
  end.

(** The second loop of [addToSchemaMap], over [KnownGroups]. *)
Fixpoint addGroups (schemaMap : gmap N pb.SchemaRequest)
    (fields : list string) (gids : list N) : gmap N pb.SchemaRequest :=
  match gids with
  | [] => schemaMap
  | gid :: rest =>
      if N.eqb gid 0 then addGroups schemaMap fields rest
      else match schemaMap !! gid with
           | Some _ => addGroups schemaMap fields rest
           | None =>
               addGroups (<[gid := pb.mkSchemaRequest gid [] fields]> schemaMap)
                 fields rest
           end
  end.

(** [addToSchemaMap] mutates the map it is given; here it returns the
    updated map. *)
Definition addToSchemaMap (schemaMap : gmap N pb.SchemaRequest)
    (schema : pb.SchemaRequest) : gmap N pb.SchemaRequest :=
  let schemaMap :=
    addPredicates schemaMap (pb.Fields schema) (pb.Predicates schema) in
  if bool_decide (0 < length (pb.Predicates schema)) then schemaMap
  else addGroups schemaMap (pb.Fields schema) (KnownGroups groups).

(** The lower-case [getSchemaOverNetwork]: the one message the task sends
    on the channel. *)
Definition getSchemaOverNetwork (gid : N) (s : pb.SchemaRequest)
    : resultErr :=
  if ServesGroup groups gid then
    let '(schema, e) := getSchema s in mkResultErr (Some schema) e
  else match Leader groups gid with
       | None => mkResultErr None (Some ErrNoConnection)
       | Some pl =>
           match remoteSchema pl s with
           | inl schema => mkResultErr (Some schema) None
           | inr e => mkResultErr None (Some e)
           end
       end.

(** The dispatch loop of [GetSchemaOverNetwork].  [started] lists, in
    order, the tasks the [go] statement has started, each with the message
    it sends; the boolean tells that the loop returned at [gid == 0]. *)
Fixpoint dispatch (entries : list (N * pb.SchemaRequest))
    (started : list (N * resultErr)) : bool * list (N * resultErr) :=
  match entries with
  | [] => (false, started)
  | (gid, s) :: rest =>
      if N.eqb gid 0 then (true, started)
      else dispatch rest (started ++ [(gid, getSchemaOverNetwork gid s)])
  end.

(** The aggregation loop: [n] iterations are left, [pending] are the tasks
    whose message has not been received yet.  The loop waits for ever when
    the scheduler has nothing more to offer or no task is outstanding. *)
Fixpoint gather (n : nat) (pending : list (N * resultErr))
    (sched : list event) (schemaNodes : list api.SchemaNode) : outcome :=
  match n with
  | O => Return schemaNodes None
  | S n' =>
      match sched with
      | [] => Block
      | Done e :: _ => Return [] (Some e)
      | Recv k :: sched' =>
          match pending !! (k `mod` length pending)%nat with
          | None => Block
          | Some (_, r) =>
              match err r with
              | Some e => Return [] (Some e)
              | None =>
                  match result r with
                  | None => Panic
                  | Some res =>
                      gather n'
                        (delete (k `mod` length pending)%nat pending)
                        sched' (schemaNodes ++ pb.Schema res)
                  end
              end
          end
      end
  end.

(** [GetSchemaOverNetwork]: the outcome of the call and the group ids of
    the tasks it started. *)
Definition GetSchemaOverNetwork (schema : pb.SchemaRequest)
    (sched : list event) : outcome * list N :=
  match HealthCheck with
  | Some e => (Return [] (Some e), [])
  | None =>
      let schemaMap := addToSchemaMap ∅ schema in
      let '(unserved, started) := dispatch (range schemaMap) [] in
      if unserved then (Return [] (Some errUnservedTablet), started.*1)
      else (gather (size schemaMap) started sched [], started.*1)
  end.

(** [grpcWorker.Schema] *)
Definition Schema (ctx : Context) (s : pb.SchemaRequest)
    : pb.SchemaResult * option error :=
  match Err ctx with
  | Some e => (emptySchemaResult, Some e)
  | None =>
      if negb (ServesGroup groups (pb.GroupId s))
      then (emptySchemaResult, Some (Errorf_group (pb.GroupId s)))
      else getSchema s
  end.

(** *** Vocabulary of the statements *)

(** The tokenizer list of a node under construction is empty or the
    catalog's list of an indexed predicate. *)
Definition tokenizer_ok (attr : string) (n : api.SchemaNode) : Prop :=
  api.Tokenizer n = [] ∨
  (schema.IsIndexed State attr = true ∧
   api.Tokenizer n = schema.TokenizerNames State attr).

(** The predicates of a request that [BelongsTo] places in group [gid],
    in request order. *)
Definition owned (gid : N) (predicates : list string) : list string :=
  filter (λ attr, BelongsTo groups attr = gid) predicates.

(** All predicates of all sub-requests of a map, entry after entry. *)
Definition subrequest_predicates (schemaMap : gmap N pb.SchemaRequest)
    : list string :=
  map_to_list schemaMap ≫= (λ entry, pb.Predicates entry.2).

(** The task that the [go] statement starts for a map entry, with the
    message it sends. *)
Definition task (entry : N * pb.SchemaRequest) : N * resultErr :=
  (entry.1, getSchemaOverNetwork entry.1 entry.2).

(** The nodes that a message contributes to the aggregate. *)
Definition nodes_of (r : resultErr) : list api.SchemaNode :=
  match result r with
  | Some res => pb.Schema res
  | None => []
  end.

(** A message carries a result or an error. *)
Definition well_formed (r : resultErr) : Prop :=
  err r = None → is_Some (result r).

End worker.

(** ** A two-group cluster

    The cluster of the running example: this node serves group 1, which owns
    ["name"] (a string, indexed); group 2, reached through its leader, owns
    ["age"] (an int, not indexed); any other predicate has no owning group
    yet. *)

Inductive exTypeID := IntID | StringID.

Definition exName (typ : exTypeID) : string :=
  match typ with IntID => "int" | StringID => "string" end.

Definition exState : schema.state exTypeID :=
  schema.mkState ["name"; "age"]
    (λ attr, if String.eqb attr "name" then Some StringID
             else if String.eqb attr "age" then Some IntID else None)
    (λ attr, String.eqb attr "name")
    (λ attr, if String.eqb attr "name" then ["exact"; "term"] else ["int"])
    (λ _, false) (λ _, false) (λ _, false) (λ _, false)
    (λ attr, String.eqb attr "name").

Definition exBelongsTo (attr : string) : N :=
  if String.eqb attr "name" then 1%N
  else if String.eqb attr "age" then 2%N else 0%N.

(** The topology as this node sees it ... *)
Definition exGroups : groupi unit :=
  mkGroupi (N.eqb 1) (λ attr, String.eqb attr "name") exBelongsTo
    [0%N; 1%N; 2%N] (λ gid, if N.eqb gid 2 then Some tt else None).

(** ... and as the leader of group 2 sees it. *)
Definition exGroups2 : groupi unit :=
  mkGroupi (N.eqb 2) (λ attr, String.eqb attr "age") exBelongsTo
    [0%N; 1%N; 2%N] (λ gid, if N.eqb gid 1 then Some tt else None).

(** Three variations: this node serves every group and tablet; group 2
    has no leader; no group is known yet. *)
Definition exGroupsAll : groupi unit :=
  mkGroupi (λ _, true) (λ _, true) exBelongsTo [0%N; 1%N; 2%N] (λ _, None).

Definition exGroupsNoLeader : groupi unit :=
  mkGroupi (N.eqb 1) (λ attr, String.eqb attr "name") exBelongsTo
    [0%N; 1%N; 2%N] (λ _, None).

Definition exGroupsUnknown : groupi unit :=
  mkGroupi (N.eqb 1) (λ attr, String.eqb attr "name") exBelongsTo
    [0%N] (λ _, None).

(** The remote call lands in [Schema] on the leader of group 2. *)
Definition exRemote (pl : unit) (s : pb.SchemaRequest)
    : pb.SchemaResult + error :=
  match Schema exName exState exGroups2 (mkContext None) s with
  | (res, None) => inl res
  | (_, Some e) => inr e
  end.

(** Two orders in which [range] may visit a map. *)
Definition rangeFwd (schemaMap : gmap N pb.SchemaRequest)
    : list (N * pb.SchemaRequest) := map_to_list schemaMap.
Definition rangeRev (schemaMap : gmap N pb.SchemaRequest)
    : list (N * pb.SchemaRequest) := reverse (map_to_list schemaMap).

Definition exRequest : pb.SchemaRequest :=
  pb.mkSchemaRequest 0 ["name"; "age"] ["type"; "index"].

Definition exUnrouted : pb.SchemaRequest :=
  pb.mkSchemaRequest 0 ["name"; "ghost"] [].

(** ** The local projector *)

Section projector.

Context {TypeID Pool : Type}.
Variable Name : TypeID → string.
Variable State : schema.state TypeID.
Variable groups : groupi Pool.

Local Abbreviation popField := (populateField Name State).
Local Abbreviation popSchema := (populateSchema Name State).

Ltac field_cases :=
  unfold populateField;
  repeat match goal with
         | |- context [String.eqb ?a ?b] => destruct (String.eqb_spec a b)
         | |- context [schema.IsIndexed ?s ?a] =>
             destruct (schema.IsIndexed s a) eqn:?
         end.

Lemma populateField_Predicate attr typ n field :
  api.Predicate (popField attr typ n field) = api.Predicate n.
Proof. destruct n. field_cases; reflexivity. Qed.

Lemma foldl_populateField_Predicate attr typ fields n :
  api.Predicate (foldl (popField attr typ) n fields) = api.Predicate n.
Proof.
  revert n. induction fields as [|f fields IH]; intros n; simpl; [done|].
  by rewrite IH, populateField_Predicate.
Qed.

(** A field name outside the eight recognised ones changes nothing. *)
Lemma populateField_default attr typ n field :
  field ∉ defaultFields → popField attr typ n field = n.
Proof.
  intros Hnot. destruct n. field_cases; subst; try reflexivity;
    exfalso; apply Hnot; unfold defaultFields; set_solver.
Qed.

Lemma populateField_tokenizer_ok attr typ n field :
  tokenizer_ok State attr n →
  tokenizer_ok State attr (popField attr typ n field).
Proof.
  unfold tokenizer_ok. destruct n; simpl. intros H.
  field_cases; simpl; auto.
Qed.

Lemma foldl_populateField_tokenizer_ok attr typ fields n :
  tokenizer_ok State attr n →
  tokenizer_ok State attr (foldl (popField attr typ) n fields).
Proof.
  revert n. induction fields as [|f fields IH]; intros n Hn; simpl; [done|].
  apply IH, populateField_tokenizer_ok, Hn.
Qed.

(** Once the catalog's tokenizers of an indexed predicate are in the node,
    no later field removes them. *)
Lemma populateField_tokenizer_set attr typ n field :
  schema.IsIndexed State attr = true →
  (field = "tokenizer" ∨
   api.Tokenizer n = schema.TokenizerNames State attr) →
  api.Tokenizer (popField attr typ n field)
  = schema.TokenizerNames State attr.
Proof.
  intros Hidx H. destruct n; simpl in *.
  unfold populateField. rewrite Hidx.
  repeat match goal with
         | |- context [String.eqb ?a ?b] => destruct (String.eqb_spec a b)
         end; simpl; subst; try done; by destruct H.
Qed.

Lemma foldl_populateField_tokenizer_set attr typ fields n :
  schema.IsIndexed State attr = true →
  ("tokenizer" ∈ fields ∨
   api.Tokenizer n = schema.TokenizerNames State attr) →
  api.Tokenizer (foldl (popField attr typ) n fields)
  = schema.TokenizerNames State attr.
Proof.
  intros Hidx. revert n.
  induction fields as [|f fields IH]; intros n H; simpl.
  - destruct H as [H|H]; [by apply elem_of_nil in H | done].
  - apply IH. destruct H as [H|H].
    + apply elem_of_cons in H as [<-|H]; [right|by left].
      apply populateField_tokenizer_set; auto.
    + right. apply populateField_tokenizer_set; auto.
Qed.

(** The loop of [getSchema] keeps, in order, the nodes of the predicates
    that are served here and defined in the catalog. *)
Lemma getSchema_loop_spec predicates fields acc :
  getSchema_loop Name State groups predicates fields acc
  = acc ++ omap (λ attr, popSchema attr fields)
             (filter (λ attr, ServesTablet groups attr = true) predicates).
Proof.
  revert acc. induction predicates as [|attr rest IH]; intros acc; simpl.
  - by rewrite app_nil_r.
  - rewrite filter_cons. destruct (ServesTablet groups attr); simpl.
    + destruct (popSchema attr fields); rewrite IH; [|done].
      by rewrite <- app_assoc.
    + apply IH.
Qed.

Lemma populateSchema_Some_Predicate attr fields n :
  popSchema attr fields = Some n → api.Predicate n = attr.
Proof.
  unfold populateSchema.
  destruct (schema.TypeOf State attr); [|done].
  intros [= <-]. by rewrite foldl_populateField_Predicate.
Qed.

(** With the default field list every field of the node comes from the
    catalog. *)
Lemma populateSchema_defaultFields attr typ :
  schema.TypeOf State attr = Some typ →
  popSchema attr defaultFields
  = Some (api.mkSchemaNode attr (Name typ) (schema.IsIndexed State attr)
            (if schema.IsIndexed State attr
             then schema.TokenizerNames State attr else [])
            (schema.IsReversed State attr) (schema.HasCount State attr)
            (schema.IsList State attr) (schema.HasUpsert State attr)
            (schema.HasLang State attr)).
Proof.
  intros Htyp. unfold populateSchema. rewrite Htyp. simpl.
  unfold populateField; simpl.
  by destruct (schema.IsIndexed State attr).
Qed.

(** C5.  For every predicate list, [getSchema] on a request with an empty
    field list returns what it returns on the same request with the field
    list ["type"; "index"; "tokenizer"; "reverse"; "count"; "list";
    "upsert"; "lang"], in that order. *)
Theorem getSchema_empty_fields_is_default (gid : N)
    (predicates : list string) :
  getSchema Name State groups (pb.mkSchemaRequest gid predicates [])
  = getSchema Name State groups
      (pb.mkSchemaRequest gid predicates
         ["type"; "index"; "tokenizer"; "reverse"; "count"; "list";
          "upsert"; "lang"]).
Proof. reflexivity. Qed.

(** C6.  When "tokenizer" is among the requested fields, the node that
    [populateSchema] returns has a non-empty [Tokenizer] only if the
    catalog reports the predicate as indexed; for an unindexed predicate
    [Tokenizer] stays empty, and for an indexed one it is the catalog's
    list of tokenizer names. *)
Theorem populateSchema_tokenizer_only_if_indexed (attr : string)
    (fields : list string) (schemaNode : api.SchemaNode) :
  "tokenizer" ∈ fields →
  populateSchema Name State attr fields = Some schemaNode →
  (api.Tokenizer schemaNode ≠ [] → schema.IsIndexed State attr = true) ∧
  (schema.IsIndexed State attr = false → api.Tokenizer schemaNode = []) ∧
  (schema.IsIndexed State attr = true →
   api.Tokenizer schemaNode = schema.TokenizerNames State attr).
Proof.
  intros Hin. unfold populateSchema.
  destruct (schema.TypeOf State attr) as [typ|]; [|done].
  intros [= <-].
  pose proof (foldl_populateField_tokenizer_ok attr typ fields
                (api.mkSchemaNode attr "" false [] false false false false
                   false)) as Hok.
  split; [|split].
  - intros Hne. destruct Hok as [Hnil|[Hidx _]]; [by left|done|done].
  - intros Hno. destruct Hok as [Hnil|[Hidx _]]; [by left|done|congruence].
  - intros Hidx. apply foldl_populateField_tokenizer_set; auto.
Qed.

(** C7.  A predicate for which [TypeOf] fails yields no node from
    [populateSchema], whatever the fields; [getSchema] returns no error and
    no node of its result carries that predicate's name. *)
Theorem undefined_predicate_is_omitted (attr : string) :
  schema.TypeOf State attr = None →
  (∀ fields, populateSchema Name State attr fields = None) ∧
  (∀ s, (getSchema Name State groups s).2 = None ∧
        ∀ schemaNode,
          schemaNode ∈ pb.Schema (getSchema Name State groups s).1 →
          api.Predicate schemaNode ≠ attr).
Proof.
  intros Hundef. split.
  - intros fields. unfold populateSchema. by rewrite Hundef.
  - intros s. split; [reflexivity|].
    intros n. unfold getSchema; simpl. rewrite getSchema_loop_spec; simpl.
    intros Hn. apply list_elem_of_omap in Hn as (attr' & _ & Hpop).
    intros Heq. pose proof (populateSchema_Some_Predicate _ _ _ Hpop) as Hp.
    rewrite Heq in Hp. subst attr'.
    unfold populateSchema in Hpop. by rewrite Hundef in Hpop.
Qed.

(** C9.  Every node that [populateSchema] returns carries the queried
    predicate in [Predicate], whatever the field list; a defined predicate
    always yields a node, and when none of the fields is a recognised name
    that node has only [Predicate] set. *)
Theorem populateSchema_names_the_predicate (attr : string)
    (fields : list string) :
  (∀ schemaNode, populateSchema Name State attr fields = Some schemaNode →
                 api.Predicate schemaNode = attr) ∧
  (is_Some (schema.TypeOf State attr) →
   is_Some (populateSchema Name State attr fields) ∧
   (Forall (λ field, field ∉ defaultFields) fields →
    populateSchema Name State attr fields
    = Some (api.mkSchemaNode attr "" false [] false false false false
              false))).
Proof.
  split; [apply populateSchema_Some_Predicate|].
  intros [typ Htyp]. unfold populateSchema. rewrite Htyp. split; [eauto|].
  intros Hall. f_equal.
  generalize (api.mkSchemaNode attr "" false [] false false false false
                false).
  induction Hall as [|f fields Hf _ IH]; intros n; simpl; [done|].
  by rewrite populateField_default.
Qed.

End projector.

(** ** The request partitioner *)

Section partitioner.

Context {Pool : Type}.
Variable groups : groupi Pool.

Lemma owned_cons_eq attr rest :
  owned groups (BelongsTo groups attr) (attr :: rest)
  = attr :: owned groups (BelongsTo groups attr) rest.
Proof. unfold owned. rewrite filter_cons. by case_decide. Qed.

Lemma owned_cons_ne gid attr rest :
  BelongsTo groups attr ≠ gid →
  owned groups gid (attr :: rest) = owned groups gid rest.
Proof. intros Hne. unfold owned. rewrite filter_cons. by case_decide. Qed.

Lemma elem_of_owned gid predicates attr :
  attr ∈ owned groups gid predicates
  ↔ attr ∈ predicates ∧ BelongsTo groups attr = gid.
Proof. unfold owned. rewrite list_elem_of_filter. tauto. Qed.

(** What the first loop leaves under each key. *)
Lemma addPredicates_lookup schemaMap fields predicates gid :
  addPredicates groups schemaMap fields predicates !! gid
  = match owned groups gid predicates with
    | [] => schemaMap !! gid
    | ps =>
        let s := default (pb.mkSchemaRequest gid [] fields)
                   (schemaMap !! gid) in
        Some (pb.mkSchemaRequest (pb.GroupId s) (pb.Predicates s ++ ps)
                (pb.Fields s))
    end.
Proof.
  revert schemaMap.
  induction predicates as [|attr rest IH]; intros schemaMap; [done|].
  simpl addPredicates. rewrite IH.
  destruct (decide (BelongsTo groups attr = gid)) as [<-|Hne].
  - rewrite owned_cons_eq, lookup_insert_eq. simpl.
    destruct (owned groups (BelongsTo groups attr) rest) as [|p ps];
      destruct (schemaMap !! BelongsTo groups attr) as [s|]; simpl;
      by rewrite <- ?app_assoc.
  - rewrite owned_cons_ne, lookup_insert_ne by done. done.
Qed.

Lemma known_nonzero_cons (g gid : N) (rest : list N) :
  (gid = g → gid ≠ 0%N → False) →
  gid ∈ g :: rest ∧ gid ≠ 0%N ↔ gid ∈ rest ∧ gid ≠ 0%N.
Proof.
  intros Hskip. rewrite elem_of_cons. split.
  - intros [[Heq|Hin] Hnz]; [by destruct (Hskip Heq Hnz)|done].
  - intros [Hin Hnz]. split; [by right|done].
Qed.

(** What the second loop leaves under each key. *)
Lemma addGroups_lookup schemaMap fields gids gid :
  addGroups schemaMap fields gids !! gid
  = match schemaMap !! gid with
    | Some s => Some s
    | None =>
        if decide (gid ∈ gids ∧ gid ≠ 0%N)
        then Some (pb.mkSchemaRequest gid [] fields) else None
    end.
Proof.
  revert schemaMap.
  induction gids as [|g rest IH]; intros schemaMap; cbn [addGroups].
  - destruct (schemaMap !! gid); [done|].
    rewrite decide_False; [done|]. intros [H _]. by apply elem_of_nil in H.
  - destruct (N.eqb_spec g 0) as [->|Hg0].
    { rewrite IH. destruct (schemaMap !! gid); [done|].
      apply decide_ext. symmetry. apply known_nonzero_cons. congruence. }
    destruct (schemaMap !! g) as [sg|] eqn:Hg.
    { rewrite IH. destruct (schemaMap !! gid) eqn:Hgid; [done|].
      apply decide_ext. symmetry. apply known_nonzero_cons. congruence. }
    rewrite IH. destruct (decide (g = gid)) as [->|Hne].
    + rewrite lookup_insert_eq, Hg. rewrite decide_True; [done|].
      split; [apply elem_of_cons; by left|done].
    + rewrite lookup_insert_ne by done.
      destruct (schemaMap !! gid); [done|].
      apply decide_ext. symmetry. apply known_nonzero_cons. congruence.
Qed.

(** Appending one predicate to the sub-request of a group adds one
    predicate to the map, whether the group was there or not. *)
Lemma subrequest_predicates_append schemaMap gid fields attr :
  let s := match schemaMap !! gid with
           | Some s => s
           | None => pb.mkSchemaRequest gid [] fields
           end in
  subrequest_predicates
    (<[gid := pb.mkSchemaRequest (pb.GroupId s) (pb.Predicates s ++ [attr])
                (pb.Fields s)]> schemaMap)
  ≡ₚ subrequest_predicates schemaMap ++ [attr].
Proof.
  unfold subrequest_predicates.
  destruct (schemaMap !! gid) as [s0|] eqn:Hgid; simpl.
  - rewrite <- insert_delete_eq.
    rewrite map_to_list_insert by apply lookup_delete_eq.
    rewrite <- (map_to_list_delete schemaMap gid s0 Hgid).
    rewrite !bind_cons. simpl.
    rewrite <- !app_assoc. apply Permutation_app_head, Permutation_app_comm.
  - rewrite map_to_list_insert by done. rewrite bind_cons. simpl.
    apply Permutation_cons_append.
Qed.

Lemma addPredicates_permutation schemaMap fields predicates :
  subrequest_predicates (addPredicates groups schemaMap fields predicates)
  ≡ₚ subrequest_predicates schemaMap ++ predicates.
Proof.
  revert schemaMap.
  induction predicates as [|attr rest IH]; intros schemaMap; simpl.
  - by rewrite app_nil_r.
  - rewrite IH, subrequest_predicates_append.
    by rewrite <- app_assoc.
Qed.

Lemma addGroups_permutation schemaMap fields gids :
  subrequest_predicates (addGroups schemaMap fields gids)
  ≡ₚ subrequest_predicates schemaMap.
Proof.
  revert schemaMap.
  induction gids as [|g rest IH]; intros schemaMap; simpl; [done|].
  destruct (N.eqb g 0); [apply IH|].
  destruct (schemaMap !! g) eqn:Hg; [apply IH|].
  rewrite IH. unfold subrequest_predicates.
  by rewrite map_to_list_insert.
Qed.

(** The partition of a request with predicates, key by key. *)
Lemma addToSchemaMap_named_lookup schema gid :
  pb.Predicates schema ≠ [] →
  addToSchemaMap groups ∅ schema !! gid
  = match owned groups gid (pb.Predicates schema) with
    | [] => None
    | ps => Some (pb.mkSchemaRequest gid ps (pb.Fields schema))
    end.
Proof.
  intros Hne. unfold addToSchemaMap.
  rewrite bool_decide_eq_true_2
    by (destruct (pb.Predicates schema); simpl; [done|lia]).
  rewrite addPredicates_lookup, lookup_empty. done.
Qed.

(** The partition of a request without predicates holds only empty
    sub-requests. *)
Lemma addToSchemaMap_unnamed_empty schema gid s :
  pb.Predicates schema = [] →
  addToSchemaMap groups ∅ schema !! gid = Some s → pb.Predicates s = [].
Proof.
  intros Hnil. unfold addToSchemaMap. rewrite Hnil. simpl.
  rewrite addGroups_lookup, lookup_empty.
  case_decide; [|done]. by intros [= <-].
Qed.

(** X5.  The fresh map gets an entry for group 0 exactly when some named
    predicate has no owning group ([BelongsTo] answers 0); a request without
    predicates never gets one, even when [KnownGroups] lists 0. *)
Lemma addToSchemaMap_unserved_entry schema :
  is_Some (addToSchemaMap groups ∅ schema !! 0%N)
  ↔ ∃ attr, attr ∈ pb.Predicates schema ∧ BelongsTo groups attr = 0%N.
Proof.
  destruct (pb.Predicates schema) as [|p0 ps] eqn:Hps.
  - unfold addToSchemaMap. rewrite Hps. simpl.
    rewrite addGroups_lookup, lookup_empty.
    rewrite decide_False by tauto. split.
    + by intros [? ?].
    + intros (attr & Hin & _). by apply elem_of_nil in Hin.
  - rewrite addToSchemaMap_named_lookup by (by rewrite Hps).
    rewrite Hps. split.
    + destruct (owned groups 0 (p0 :: ps)) as [|attr l] eqn:Hown;
        [by intros [? ?]|].
      intros _. exists attr. apply elem_of_owned. rewrite Hown.
      apply elem_of_cons. by left.
    + intros (attr & Hin & Hzero).
      assert (Hown : attr ∈ owned groups 0 (p0 :: ps))
        by by apply elem_of_owned.
      destruct (owned groups 0 (p0 :: ps));
        [by apply elem_of_nil in Hown|eauto].
Qed.

(** C3.  For a request with at least one predicate, [addToSchemaMap] on the
    fresh map puts every named predicate in the sub-request of the group
    [BelongsTo] reports for it and in no other; the sub-requests hold no
    predicate that the request does not name, so their union is the
    request's predicate set; each sub-request carries its group id, the
    request's field list and, in request order, the predicates of its
    group. *)
Theorem addToSchemaMap_partitions_named_predicates
    (schema : pb.SchemaRequest) :
  pb.Predicates schema ≠ [] →
  let schemaMap := addToSchemaMap groups ∅ schema in
  (∀ attr, attr ∈ pb.Predicates schema →
     ∃ s, schemaMap !! BelongsTo groups attr = Some s ∧
          attr ∈ pb.Predicates s) ∧
  (∀ gid s attr, schemaMap !! gid = Some s → attr ∈ pb.Predicates s →
     attr ∈ pb.Predicates schema ∧ gid = BelongsTo groups attr) ∧
  (∀ gid s, schemaMap !! gid = Some s →
     pb.GroupId s = gid ∧ pb.Fields s = pb.Fields schema ∧
     pb.Predicates s = owned groups gid (pb.Predicates schema)).
Proof.
  intros Hne schemaMap.
  assert (Hsub : ∀ gid s, schemaMap !! gid = Some s →
            s = pb.mkSchemaRequest gid (owned groups gid (pb.Predicates schema))
                  (pb.Fields schema)).
  { intros gid s. unfold schemaMap.
    rewrite addToSchemaMap_named_lookup by done.
    destruct (owned groups gid (pb.Predicates schema)); [done|congruence]. }
  split; [|split].
  - intros attr Hin. unfold schemaMap.
    rewrite addToSchemaMap_named_lookup by done.
    assert (Hown : attr ∈ owned groups (BelongsTo groups attr)
                            (pb.Predicates schema))
      by by apply elem_of_owned.
    destruct (owned groups (BelongsTo groups attr) (pb.Predicates schema))
      as [|p ps]; [by apply elem_of_nil in Hown|].
    eexists. split; [reflexivity|done].
  - intros gid s attr Hs Hin. apply Hsub in Hs as ->. simpl in Hin.
    apply elem_of_owned in Hin as [? ?]. done.
  - intros gid s Hs. by apply Hsub in Hs as ->.
Qed.

(** C4.  For a request with no predicate, [addToSchemaMap] on the fresh
    map binds exactly the group ids that [KnownGroups] lists and that are
    not 0, each to the sub-request with that group id, no predicate and
    the request's field list. *)
Theorem addToSchemaMap_expands_known_groups (schema : pb.SchemaRequest) :
  pb.Predicates schema = [] →
  ∀ gid s,
    addToSchemaMap groups ∅ schema !! gid = Some s
    ↔ gid ∈ KnownGroups groups ∧ gid ≠ 0%N ∧
      s = pb.mkSchemaRequest gid [] (pb.Fields schema).
Proof.
  intros Hnil gid s. unfold addToSchemaMap. rewrite Hnil. simpl.
  rewrite addGroups_lookup, lookup_empty.
  case_decide as Hdec; split.
  - intros [= <-]. tauto.
  - by intros (_ & _ & ->).
  - done.
  - intros (? & ? & _). tauto.
Qed.

(** C10.  [addToSchemaMap] does not deduplicate: the predicates of all
    sub-requests of the resulting map are, as a multiset, those the map
    held before together with the request's predicate list; on the fresh
    map they are the request's predicate list, and a predicate occurs in
    the sub-request of its group as many times as in the request. *)
Theorem addToSchemaMap_keeps_duplicates (schema : pb.SchemaRequest) :
  (∀ schemaMap,
     subrequest_predicates (addToSchemaMap groups schemaMap schema)
     ≡ₚ subrequest_predicates schemaMap ++ pb.Predicates schema) ∧
  subrequest_predicates (addToSchemaMap groups ∅ schema)
  ≡ₚ pb.Predicates schema ∧
  (∀ attr s,
     addToSchemaMap groups ∅ schema !! BelongsTo groups attr = Some s →
     filter (λ p, p = attr) (pb.Predicates s)
     = filter (λ p, p = attr) (pb.Predicates schema)).
Proof.
  assert (Hperm : ∀ schemaMap,
            subrequest_predicates (addToSchemaMap groups schemaMap schema)
            ≡ₚ subrequest_predicates schemaMap ++ pb.Predicates schema).
  { intros schemaMap. unfold addToSchemaMap. case_bool_decide.
    - apply addPredicates_permutation.
    - rewrite addGroups_permutation. apply addPredicates_permutation. }
  split; [done|split].
  - rewrite Hperm. unfold subrequest_predicates.
    by rewrite map_to_list_empty.
  - intros attr s.
    destruct (pb.Predicates schema) as [|p0 ps] eqn:Hps.
    + intros Hs.
      apply addToSchemaMap_unnamed_empty in Hs; [|done].
      by rewrite Hs.
    + rewrite addToSchemaMap_named_lookup by (by rewrite Hps).
      rewrite Hps.
      destruct (owned groups (BelongsTo groups attr) (p0 :: ps)) eqn:Hown;
        [done|].
      intros [= <-]. simpl. rewrite <- Hown. unfold owned.
      rewrite list_filter_filter. apply list_filter_iff.
      intros p. split; [tauto|]. by intros ->.
Qed.

End partitioner.

(** ** The scatter/gather coordinator *)

Section coordinator.

Context {TypeID Pool : Type}.
Variable Name : TypeID → string.
Variable State : schema.state TypeID.
Variable groups : groupi Pool.
Variable HealthCheck : option error.
Variable remoteSchema : Pool → pb.SchemaRequest → pb.SchemaResult + error.
Variable range : gmap N pb.SchemaRequest → list (N * pb.SchemaRequest).

(** [range] visits every entry of the map once, in some order. *)
Hypothesis range_perm :
  ∀ schemaMap, range schemaMap ≡ₚ map_to_list schemaMap.

(** The task of a map entry on this node. *)
Local Abbreviation sent := (task Name State groups remoteSchema).

Lemma getSchemaOverNetwork_well_formed gid s :
  well_formed (getSchemaOverNetwork Name State groups remoteSchema gid s).
Proof.
  unfold well_formed, getSchemaOverNetwork.
  destruct (ServesGroup groups gid); [simpl; eauto|].
  destruct (Leader groups gid) as [pl|]; [|done].
  destruct (remoteSchema pl s); simpl; [eauto|done].
Qed.

(** The dispatch loop stops at the first entry of group 0 ... *)
Lemma dispatch_unserved before s0 after started :
  0%N ∉ before.*1 →
  dispatch Name State groups remoteSchema (before ++ (0%N, s0) :: after)
    started
  = (true, started ++ (sent <$> before)).
Proof.
  revert started.
  induction before as [|[gid s] before IH]; intros started Hnot; simpl.
  - by rewrite app_nil_r.
  - rewrite fmap_cons, not_elem_of_cons in Hnot. destruct Hnot as [Hg Hnot].
    simpl in Hg. destruct (N.eqb_spec gid 0) as [->|_]; [done|].
    rewrite IH by done. by rewrite <- app_assoc.
Qed.

(** ... and starts a task for every entry when there is none. *)
Lemma dispatch_served entries started :
  0%N ∉ entries.*1 →
  dispatch Name State groups remoteSchema entries started
  = (false, started ++ (sent <$> entries)).
Proof.
  revert started.
  induction entries as [|[gid s] entries IH]; intros started Hnot; simpl.
  - by rewrite app_nil_r.
  - rewrite fmap_cons, not_elem_of_cons in Hnot. destruct Hnot as [Hg Hnot].
    simpl in Hg. destruct (N.eqb_spec gid 0) as [->|_]; [done|].
    rewrite IH by done. by rewrite <- app_assoc.
Qed.

Lemma first_unserved (entries : list (N * pb.SchemaRequest)) :
  0%N ∈ entries.*1 →
  ∃ before s0 after,
    entries = before ++ (0%N, s0) :: after ∧ 0%N ∉ before.*1.
Proof.
  induction entries as [|[gid s] entries IH]; simpl.
  - intros H. by apply elem_of_nil in H.
  - intros H. destruct (decide (gid = 0%N)) as [->|Hne].
    + exists [], s, entries. split; [done|]. apply not_elem_of_nil.
    + apply elem_of_cons in H as [H|H]; [congruence|].
      destruct (IH H) as (before & s0 & after & -> & Hnot).
      exists ((gid, s) :: before), s0, after. split; [done|].
      rewrite fmap_cons. apply not_elem_of_cons.
      split; [simpl; congruence|done].
Qed.

(** The aggregation loop over [n] outstanding well-formed messages. *)
Lemma gather_spec n pending sched schemaNodes :
  length pending = n →
  Forall (λ t, well_formed t.2) pending →
  match gather n pending sched schemaNodes with
  | Return nodes None =>
      ∃ arrived, arrived ≡ₚ pending ∧
        Forall (λ t, err t.2 = None) arrived ∧
        nodes = schemaNodes ++ (arrived ≫= (λ t, nodes_of t.2))
  | Return nodes (Some e) =>
      nodes = [] ∧
      (Done e ∈ sched ∨ ∃ t, t ∈ pending ∧ err t.2 = Some e)
  | Panic => False
  | Block => length sched < n
  end.
Proof.
  revert pending sched schemaNodes.
  induction n as [|n IH]; intros pending sched schemaNodes Hlen Hwf; simpl.
  { apply nil_length_inv in Hlen as ->. exists [].
    split; [done|]. split; [constructor|]. by rewrite app_nil_r. }
  destruct sched as [|[k|e] sched]; simpl; [lia| |].
  2:{ split; [done|]. left. apply elem_of_cons. by left. }
  set (i := (k `mod` length pending)%nat).
  assert (Hi : (i < length pending)%nat)
    by (apply Nat.mod_upper_bound; lia).
  destruct (lookup_lt_is_Some_2 _ _ Hi) as [[gid r] Hlook].
  rewrite Hlook.
  pose proof (delete_Permutation _ _ _ Hlook) as Hperm.
  assert (Hin : (gid, r) ∈ pending) by (by eapply list_elem_of_lookup_2).
  destruct (err r) as [e|] eqn:Herr.
  { split; [done|]. right. by exists (gid, r). }
  pose proof (proj1 (Forall_forall _ _) Hwf _ Hin Herr) as [res Hres].
  simpl in Hres. rewrite Hres.
  assert (Hlen' : length (delete i pending) = n).
  { apply Permutation_length in Hperm. simpl in Hperm. lia. }
  assert (Hwf' : Forall (λ t, well_formed t.2) (delete i pending)).
  { rewrite Hperm in Hwf. by apply Forall_cons in Hwf as [_ ?]. }
  specialize (IH (delete i pending) sched (schemaNodes ++ pb.Schema res)
                Hlen' Hwf').
  destruct (gather n (delete i pending) sched
              (schemaNodes ++ pb.Schema res)) as [nodes [e|]| |].
  - destruct IH as [-> [Hdone|(t & Ht & Hterr)]]; split; [done| |done|].
    + left. apply elem_of_cons. by right.
    + right. exists t. split; [|done].
      rewrite Hperm. apply elem_of_cons. by right.
  - destruct IH as (arrived & Harr & Hok & ->).
    exists ((gid, r) :: arrived). split; [by rewrite Hperm, Harr|].
    split; [by constructor|].
    rewrite bind_cons. unfold nodes_of at 2. simpl. rewrite Hres.
    by rewrite <- app_assoc.
  - done.
  - simpl. lia.
Qed.

Lemma unserved_visited schemaMap :
  is_Some (schemaMap !! 0%N) ↔ 0%N ∈ (range schemaMap).*1.
Proof.
  rewrite range_perm. split.
  - intros [s Hs]. apply elem_of_map_to_list in Hs.
    by apply (list_elem_of_fmap_2 fst) in Hs.
  - intros ([gid s] & Hgid & Hin)%list_elem_of_fmap_1. simpl in Hgid.
    subst gid. apply elem_of_map_to_list in Hin. eauto.
Qed.

(** C1, as the code has it.  When the health check passes and the
    partition map of the request has an entry for group 0,
    [GetSchemaOverNetwork] returns [errUnservedTablet] with no node,
    whatever the scheduler does; the tasks it has started by then are those
    of the groups that the iteration over the map visited before
    group 0. *)
Theorem GetSchemaOverNetwork_unserved_tablet (schema : pb.SchemaRequest)
    (sched : list event) :
  HealthCheck = None →
  is_Some (addToSchemaMap groups ∅ schema !! 0%N) →
  ∃ before s0 after,
    (range (addToSchemaMap groups ∅ schema)
     = before ++ (0%N, s0) :: after) ∧
    (0%N ∉ before.*1) ∧
    GetSchemaOverNetwork Name State groups HealthCheck remoteSchema range
      schema sched
    = (Return [] (Some errUnservedTablet), before.*1).
Proof.
  intros Hhealth Hzero. apply unserved_visited in Hzero.
  destruct (first_unserved _ Hzero) as (before & s0 & after & Hsplit & Hnot).
  exists before, s0, after. split; [done|]. split; [done|].
  unfold GetSchemaOverNetwork. rewrite Hhealth, Hsplit.
  rewrite dispatch_unserved by done. simpl.
  by rewrite <- list_fmap_compose.
Qed.

(** C2.  Whatever the order of the map iteration and whatever the scheduler
    does, a call of [GetSchemaOverNetwork] that returns without error returns
    the nodes of the messages of all the entries of the partition map, in
    arrival order; a call that returns an error returns no node, and the
    error is the health error, [errUnservedTablet], the context's error or
    the error of one task; the call never dereferences a nil result, and it
    fails to return only when the schedule ends before the last message. *)
Theorem GetSchemaOverNetwork_complete_or_error (schema : pb.SchemaRequest)
    (sched : list event) :
  let schemaMap := addToSchemaMap groups ∅ schema in
  match (GetSchemaOverNetwork Name State groups HealthCheck remoteSchema
           range schema sched).1 with
  | Return schemaNodes None =>
      ∃ entries,
        entries ≡ₚ map_to_list schemaMap ∧
        Forall (λ entry, err (sent entry).2 = None) entries ∧
        schemaNodes = entries ≫= (λ entry, nodes_of (sent entry).2)
  | Return schemaNodes (Some e) =>
      schemaNodes = [] ∧
      (HealthCheck = Some e ∨
       (e = errUnservedTablet ∧ is_Some (schemaMap !! 0%N)) ∨
       Done e ∈ sched ∨
       ∃ entry, entry ∈ map_to_list schemaMap ∧ err (sent entry).2 = Some e)
  | Panic => False
  | Block => length sched < size schemaMap
  end.
Proof.
  intros schemaMap. unfold GetSchemaOverNetwork.
  destruct HealthCheck as [e|]; [simpl; auto|].
  fold schemaMap.
  destruct (decide (0%N ∈ (range schemaMap).*1)) as [Hzero|Hzero].
  { pose proof (proj2 (unserved_visited schemaMap) Hzero) as Hsome.
    destruct (first_unserved _ Hzero) as (before & s0 & after & Hsplit & Hnot).
    rewrite Hsplit, dispatch_unserved by done. simpl. auto. }
  rewrite dispatch_served by done. simpl.
  assert (Hlen : length (sent <$> range schemaMap) = size schemaMap).
  { by rewrite length_fmap, range_perm, length_map_to_list. }
  assert (Hwf : Forall (λ t, well_formed t.2) (sent <$> range schemaMap)).
  { apply Forall_fmap, Forall_forall. intros [gid s] _.
    apply getSchemaOverNetwork_well_formed. }
  pose proof (gather_spec (size schemaMap) (sent <$> range schemaMap) sched
                [] Hlen Hwf) as Hspec.
  destruct (gather (size schemaMap) (sent <$> range schemaMap) sched [])
    as [nodes [e|]| |]; [| |done|done].
  - destruct Hspec as [-> [Hdone|(t & Ht & Hterr)]]; split; auto.
    apply list_elem_of_fmap_1 in Ht as (entry & -> & Hentry).
    rewrite range_perm in Hentry. right; right; right. by exists entry.
  - destruct Hspec as (arrived & Harr & Hok & ->).
    apply Permutation_map_inv in Harr as (entries & -> & Hentries).
    change (map sent entries) with (sent <$> entries) in *.
    exists entries. split; [by rewrite <- Hentries, range_perm|].
    split; [by apply Forall_fmap in Hok|].
    simpl. by rewrite list_fmap_bind.
Qed.

End coordinator.

(** ** The remote entry point *)

(** C8.  [grpcWorker.Schema] on a context that is already cancelled or
    expired returns that context error with the empty result, whatever the
    catalog and the topology hold; otherwise, when this node does not serve
    the group the request is addressed to, it returns the
    "This server doesn't serve group id" error with the empty result,
    whatever the catalog holds; otherwise it returns what [getSchema]
    returns for the request. *)
Theorem Schema_entry_point {TypeID Pool : Type} (Name : TypeID → string)
    (State : schema.state TypeID) (groups : groupi Pool) (ctx : Context)
    (s : pb.SchemaRequest) :
  (∀ e, Err ctx = Some e →
     ∀ State' (groups' : groupi Pool),
       Schema Name State' groups' ctx s = (emptySchemaResult, Some e)) ∧
  (Err ctx = None → ServesGroup groups (pb.GroupId s) = false →
     ∀ State',
       Schema Name State' groups ctx s
       = (emptySchemaResult, Some (Errorf_group (pb.GroupId s)))) ∧
  (Err ctx = None → ServesGroup groups (pb.GroupId s) = true →
     Schema Name State groups ctx s = getSchema Name State groups s).
Proof.
  unfold Schema. split; [|split].
  - by intros e -> State' groups'.
  - by intros -> -> State'.
  - by intros -> ->.
Qed.

Lemma rangeFwd_perm schemaMap : rangeFwd schemaMap ≡ₚ map_to_list schemaMap.
Proof. reflexivity. Qed.

Lemma rangeRev_perm schemaMap : rangeRev schemaMap ≡ₚ map_to_list schemaMap.
Proof. apply reverse_Permutation. Qed.

(** The projector on the served, indexed predicate and on a predicate that
    is not indexed. *)
Example populateSchema_indexed :
  populateSchema exName exState "name" ["tokenizer"; "colour"; "lang"]
  = Some (api.mkSchemaNode "name" "" false ["exact"; "term"] false false
            false false true).
Proof. reflexivity. Qed.

Example populateSchema_unindexed :
  populateSchema exName exState "age" ["tokenizer"; "type"]
  = Some (api.mkSchemaNode "age" "int" false [] false false false false
            false).
Proof. reflexivity. Qed.

(** No predicates and no fields: every predicate of the catalog that is
    served here, with all eight fields. *)
Example getSchema_everything :
  getSchema exName exState exGroups (pb.mkSchemaRequest 1 [] [])
  = (pb.mkSchemaResult
       [api.mkSchemaNode "name" "string" true ["exact"; "term"] false false
          false false true],
     None).
Proof. reflexivity. Qed.

(** A predicate named twice is forwarded twice. *)
Example addToSchemaMap_named_twice :
  addToSchemaMap exGroups ∅
    (pb.mkSchemaRequest 0 ["name"; "age"; "name"] ["type"]) !! 1%N
  = Some (pb.mkSchemaRequest 1 ["name"; "name"] ["type"]).
Proof. vm_compute. reflexivity. Qed.

(** The example of the specification: two sub-requests, two nodes, in the
    order in which the two tasks deliver. *)
Example GetSchemaOverNetwork_two_groups :
  GetSchemaOverNetwork exName exState exGroups None exRemote rangeFwd
    exRequest [Recv 1; Recv 0]
  = (Return
       [api.mkSchemaNode "name" "string" true [] false false false false false;
        api.mkSchemaNode "age" "int" false [] false false false false false]
       None,
     [2%N; 1%N]).
Proof. vm_compute. reflexivity. Qed.

(** The same request under a cancelled context, and under a scheduler that
    stops after one message. *)
Example GetSchemaOverNetwork_cancelled :
  GetSchemaOverNetwork exName exState exGroups None exRemote rangeFwd
    exRequest [Recv 0; Done Canceled]
  = (Return [] (Some Canceled), [2%N; 1%N]).
Proof. vm_compute. reflexivity. Qed.

Example GetSchemaOverNetwork_blocked :
  GetSchemaOverNetwork exName exState exGroups None exRemote rangeFwd
    exRequest [Recv 0]
  = (Block, [2%N; 1%N]).
Proof. vm_compute. reflexivity. Qed.

(** Group 2 without a leader: the whole call fails. *)
Example GetSchemaOverNetwork_no_connection :
  GetSchemaOverNetwork exName exState
    (mkGroupi (N.eqb 1) (λ attr, String.eqb attr "name") exBelongsTo
       [0%N; 1%N; 2%N] (λ _, None))
    None exRemote rangeFwd exRequest [Recv 1; Recv 0]
  = (Return [] (Some ErrNoConnection), [2%N; 1%N]).
Proof. vm_compute. reflexivity. Qed.

(** C1 as stated does not hold: on the request ["name"; "ghost"], whose
    partition map has the entries of groups 1 and 0, an iteration that
    visits group 1 first starts the task of group 1 before it returns
    [errUnservedTablet]. *)
Lemma GetSchemaOverNetwork_task_started_before_unserved :
  is_Some (addToSchemaMap exGroups ∅ exUnrouted !! 0%N) ∧
  GetSchemaOverNetwork exName exState exGroups None exRemote rangeFwd
    exUnrouted []
  = (Return [] (Some errUnservedTablet), [1%N]) ∧
  ¬ (∀ range : gmap N pb.SchemaRequest → list (N * pb.SchemaRequest),
       (∀ schemaMap, range schemaMap ≡ₚ map_to_list schemaMap) →
       ∀ schema sched,
         is_Some (addToSchemaMap exGroups ∅ schema !! 0%N) →
         (GetSchemaOverNetwork exName exState exGroups None exRemote range
            schema sched).2 = []).
Proof.
  assert (Hzero : is_Some (addToSchemaMap exGroups ∅ exUnrouted !! 0%N))
    by (vm_compute; eauto).
  split; [done|]. split; [by vm_compute|].
  intros Hnone.
  specialize (Hnone rangeFwd rangeFwd_perm exUnrouted [] Hzero).
  vm_compute in Hnone. discriminate Hnone.
Qed.

(** The same request when the iteration visits group 0 first: no task is
    started. *)
Example GetSchemaOverNetwork_unserved_first :
  GetSchemaOverNetwork exName exState exGroups None exRemote rangeRev
    exUnrouted []
  = (Return [] (Some errUnservedTablet), []).
Proof. vm_compute. reflexivity. Qed.

(** ** The theorems at the two-group cluster *)

Lemma GetSchemaOverNetwork_unserved_tablet_witness :
  (∀ schemaMap, rangeFwd schemaMap ≡ₚ map_to_list schemaMap) ∧
  @None error = None ∧
  is_Some (addToSchemaMap exGroups ∅ exUnrouted !! 0%N) ∧
  ∃ before s0 after,
    (rangeFwd (addToSchemaMap exGroups ∅ exUnrouted)
     = before ++ (0%N, s0) :: after) ∧
    (0%N ∉ before.*1) ∧
    GetSchemaOverNetwork exName exState exGroups None exRemote rangeFwd
      exUnrouted [Recv 0]
    = (Return [] (Some errUnservedTablet), before.*1).
Proof.
  assert (Hzero : is_Some (addToSchemaMap exGroups ∅ exUnrouted !! 0%N))
    by (vm_compute; eauto).
  split; [exact rangeFwd_perm|]. split; [reflexivity|].
  split; [exact Hzero|].
  exact (GetSchemaOverNetwork_unserved_tablet exName exState exGroups None
           exRemote rangeFwd rangeFwd_perm exUnrouted [Recv 0] eq_refl Hzero).
Defined.

Lemma GetSchemaOverNetwork_complete_or_error_witness :
  (∀ schemaMap, rangeFwd schemaMap ≡ₚ map_to_list schemaMap) ∧
  ∃ entries,
    entries ≡ₚ map_to_list (addToSchemaMap exGroups ∅ exRequest) ∧
    Forall (λ entry, err (task exName exState exGroups exRemote entry).2
                     = None) entries ∧
    [api.mkSchemaNode "name" "string" true [] false false false false false;
     api.mkSchemaNode "age" "int" false [] false false false false false]
    = entries ≫= (λ entry,
                    nodes_of (task exName exState exGroups exRemote entry).2).
Proof.
  split; [exact rangeFwd_perm|].
  exact (GetSchemaOverNetwork_complete_or_error exName exState exGroups None
           exRemote rangeFwd rangeFwd_perm exRequest [Recv 1; Recv 0]).
Defined.

Lemma addToSchemaMap_partitions_named_predicates_witness :
  pb.Predicates exRequest ≠ [] ∧
  let schemaMap := addToSchemaMap exGroups ∅ exRequest in
  (∀ attr, attr ∈ ["name"; "age"] →
     ∃ s, schemaMap !! exBelongsTo attr = Some s ∧ attr ∈ pb.Predicates s) ∧
  (∀ gid s attr, schemaMap !! gid = Some s → attr ∈ pb.Predicates s →
     attr ∈ ["name"; "age"] ∧ gid = exBelongsTo attr) ∧
  (∀ gid s, schemaMap !! gid = Some s →
     pb.GroupId s = gid ∧ pb.Fields s = ["type"; "index"] ∧
     pb.Predicates s = owned exGroups gid ["name"; "age"]).
Proof.
  assert (Hne : pb.Predicates exRequest ≠ []) by (simpl; discriminate).
  split; [exact Hne|].
  exact (addToSchemaMap_partitions_named_predicates exGroups exRequest Hne).
Defined.

Lemma addToSchemaMap_expands_known_groups_witness :
  pb.Predicates (pb.mkSchemaRequest 0 [] ["type"]) = [] ∧
  ∀ gid s,
    addToSchemaMap exGroups ∅ (pb.mkSchemaRequest 0 [] ["type"]) !! gid
    = Some s
    ↔ gid ∈ [0%N; 1%N; 2%N] ∧ gid ≠ 0%N ∧
      s = pb.mkSchemaRequest gid [] ["type"].
Proof.
  split; [reflexivity|].
  exact (addToSchemaMap_expands_known_groups exGroups
           (pb.mkSchemaRequest 0 [] ["type"]) eq_refl).
Defined.

Lemma populateSchema_tokenizer_only_if_indexed_witness :
  "tokenizer" ∈ ["index"; "tokenizer"] ∧
  populateSchema exName exState "age" ["index"; "tokenizer"]
  = Some (api.mkSchemaNode "age" "" false [] false false false false false) ∧
  (schema.IsIndexed exState "age" = false →
   api.Tokenizer
     (api.mkSchemaNode "age" "" false [] false false false false false) = []).
Proof.
  assert (Hin : "tokenizer" ∈ ["index"; "tokenizer"])
    by (apply elem_of_cons; right; apply elem_of_cons; by left).
  split; [exact Hin|]. split; [reflexivity|].
  exact (proj1 (proj2 (populateSchema_tokenizer_only_if_indexed exName exState
                         "age" ["index"; "tokenizer"] _ Hin eq_refl))).
Defined.

Lemma undefined_predicate_is_omitted_witness :
  schema.TypeOf exState "ghost" = None ∧
  (∀ fields, populateSchema exName exState "ghost" fields = None) ∧
  (∀ s, (getSchema exName exState exGroups s).2 = None ∧
        ∀ schemaNode,
          schemaNode ∈ pb.Schema (getSchema exName exState exGroups s).1 →
          api.Predicate schemaNode ≠ "ghost").
Proof.
  split; [reflexivity|].
  exact (undefined_predicate_is_omitted exName exState exGroups "ghost"
           eq_refl).
Defined.

Lemma populateSchema_names_the_predicate_witness :
  is_Some (schema.TypeOf exState "name") ∧
  Forall (λ field, field ∉ defaultFields) ["colour"; "Type"] ∧
  populateSchema exName exState "name" ["colour"; "Type"]
  = Some (api.mkSchemaNode "name" "" false [] false false false false false).
Proof.
  assert (Hdef : is_Some (schema.TypeOf exState "name")) by (simpl; eauto).
  assert (Hall : Forall (λ field, field ∉ defaultFields) ["colour"; "Type"]).
  { repeat constructor; unfold defaultFields; intros Hin;
      repeat (apply elem_of_cons in Hin as [Hin|Hin]; [discriminate Hin|]);
      by apply elem_of_nil in Hin. }
  split; [exact Hdef|]. split; [exact Hall|].
  exact (proj2 (proj2 (populateSchema_names_the_predicate exName exState
                         "name" ["colour"; "Type"]) Hdef) Hall).
Defined.

Lemma Schema_entry_point_witness :
  Err (mkContext (Some Canceled)) = Some Canceled ∧
  Schema exName exState exGroups (mkContext (Some Canceled)) exRequest
  = (emptySchemaResult, Some Canceled) ∧
  Schema exName exState exGroups (mkContext None)
    (pb.mkSchemaRequest 2 ["age"] [])
  = (emptySchemaResult, Some (Errorf_group 2)).
Proof.
  split; [reflexivity|]. split.
  - exact (proj1 (Schema_entry_point exName exState exGroups
                    (mkContext (Some Canceled)) exRequest)
             Canceled eq_refl exState exGroups).
  - exact (proj1 (proj2 (Schema_entry_point exName exState exGroups
                           (mkContext None) (pb.mkSchemaRequest 2 ["age"] [])))
             eq_refl eq_refl exState).
Defined.

(** ** More on the local projector *)

Section projector_fields.

Context {TypeID Pool : Type}.
Variable Name : TypeID → string.
Variable State : schema.state TypeID.
Variable groups : groupi Pool.

(** A field of the node that one name of the switch sets, and no other name
    touches, ends up set exactly when that name is among the fields. *)
Lemma foldl_populateField_proj {A} (proj : api.SchemaNode → A)
    (name : string) (set : A → A) (attr : string) (typ : TypeID) :
  (∀ n, proj (populateField Name State attr typ n name) = set (proj n)) →
  (∀ n field, field ≠ name →
     proj (populateField Name State attr typ n field) = proj n) →
  (∀ a, set (set a) = set a) →
  ∀ fields n,
    proj (foldl (populateField Name State attr typ) n fields)
    = if bool_decide (name ∈ fields) then set (proj n) else proj n.
Proof.
  intros Hset Hother Hidem fields.
  induction fields as [|f fields IH]; intros n; cbn [foldl].
  - rewrite bool_decide_eq_false_2; [done|apply not_elem_of_nil].
  - rewrite IH. destruct (decide (f = name)) as [->|Hne].
    + rewrite Hset, (bool_decide_eq_true_2 (name ∈ name :: fields))
        by (apply elem_of_cons; by left).
      by destruct (bool_decide (name ∈ fields)).
    + rewrite Hother by done.
      destruct (bool_decide_reflect (name ∈ fields)) as [Hin|Hnot].
      * rewrite bool_decide_eq_true_2; [done|]. apply elem_of_cons. by right.
      * rewrite bool_decide_eq_false_2; [done|].
        intros [?|?]%elem_of_cons; [congruence|done].
Qed.

Ltac field_name_cases :=
  intros; unfold populateField;
  repeat match goal with
         | n : api.SchemaNode |- _ => destruct n
         | |- context [String.eqb ?a ?b] => destruct (String.eqb_spec a b)
         end; simpl; try congruence;
  try (destruct (schema.IsIndexed State _); simpl; congruence).

(** The node of a defined predicate, field by field. *)
Lemma populateSchema_spec attr typ fields :
  schema.TypeOf State attr = Some typ →
  populateSchema Name State attr fields
  = Some (api.mkSchemaNode attr
            (if bool_decide ("type" ∈ fields) then Name typ else "")
            (bool_decide ("index" ∈ fields) && schema.IsIndexed State attr)
            (if bool_decide ("tokenizer" ∈ fields)
                && schema.IsIndexed State attr
             then schema.TokenizerNames State attr else [])
            (bool_decide ("reverse" ∈ fields)
             && schema.IsReversed State attr)
            (bool_decide ("count" ∈ fields) && schema.HasCount State attr)
            (bool_decide ("list" ∈ fields) && schema.IsList State attr)
            (bool_decide ("upsert" ∈ fields) && schema.HasUpsert State attr)
            (bool_decide ("lang" ∈ fields) && schema.HasLang State attr)).
Proof.
  intros Htyp. unfold populateSchema. rewrite Htyp. f_equal.
  set (n0 := api.mkSchemaNode attr "" false [] false false false false false).
  pose proof (foldl_populateField_Predicate Name State attr typ fields n0)
    as Hp.
  pose proof (foldl_populateField_proj api.Type_ "type" (λ _, Name typ)
                attr typ ltac:(field_name_cases) ltac:(field_name_cases)
                ltac:(done) fields n0) as Ht.
  pose proof (foldl_populateField_proj api.Index "index"
                (λ _, schema.IsIndexed State attr)
                attr typ ltac:(field_name_cases) ltac:(field_name_cases)
                ltac:(done) fields n0) as Hi.
  pose proof (foldl_populateField_proj api.Tokenizer "tokenizer"
                (λ tk, if schema.IsIndexed State attr
                       then schema.TokenizerNames State attr else tk)
                attr typ
                ltac:(field_name_cases) ltac:(field_name_cases)
                ltac:(intros; by destruct (schema.IsIndexed State attr))
                fields n0) as Htk.
  pose proof (foldl_populateField_proj api.Reverse "reverse"
                (λ _, schema.IsReversed State attr)
                attr typ ltac:(field_name_cases) ltac:(field_name_cases)
                ltac:(done) fields n0) as Hr.
  pose proof (foldl_populateField_proj api.Count "count"
                (λ _, schema.HasCount State attr)
                attr typ ltac:(field_name_cases) ltac:(field_name_cases)
                ltac:(done) fields n0) as Hc.
  pose proof (foldl_populateField_proj api.List "list"
                (λ _, schema.IsList State attr)
                attr typ ltac:(field_name_cases) ltac:(field_name_cases)
                ltac:(done) fields n0) as Hl.
  pose proof (foldl_populateField_proj api.Upsert "upsert"
                (λ _, schema.HasUpsert State attr)
                attr typ ltac:(field_name_cases) ltac:(field_name_cases)
                ltac:(done) fields n0) as Hu.
  pose proof (foldl_populateField_proj api.Lang "lang"
                (λ _, schema.HasLang State attr)
                attr typ ltac:(field_name_cases) ltac:(field_name_cases)
                ltac:(done) fields n0) as Hlg.
  destruct (foldl (populateField Name State attr typ) n0 fields).
  simpl in *. subst.
  repeat match goal with
         | |- context [bool_decide ?P] => destruct (bool_decide P)
         end; simpl; try reflexivity;
    by destruct (schema.IsIndexed State attr).
Qed.

(** X1.  For a defined predicate the node of [populateSchema] has, besides
    the predicate name, each of its eight fields read from the catalog when
    the field's name is among the requested fields and left at its zero value
    otherwise; the tokenizer names are read only for an indexed predicate. *)
Theorem populateSchema_requested_fields (attr : string) (typ : TypeID)
    (fields : list string) :
  schema.TypeOf State attr = Some typ →
  populateSchema Name State attr fields
  = Some (api.mkSchemaNode attr
            (if bool_decide ("type" ∈ fields) then Name typ else "")
            (bool_decide ("index" ∈ fields) && schema.IsIndexed State attr)
            (if bool_decide ("tokenizer" ∈ fields)
                && schema.IsIndexed State attr
             then schema.TokenizerNames State attr else [])
            (bool_decide ("reverse" ∈ fields)
             && schema.IsReversed State attr)
            (bool_decide ("count" ∈ fields) && schema.HasCount State attr)
            (bool_decide ("list" ∈ fields) && schema.IsList State attr)
            (bool_decide ("upsert" ∈ fields) && schema.HasUpsert State attr)
            (bool_decide ("lang" ∈ fields) && schema.HasLang State attr)).
Proof. apply populateSchema_spec. Qed.

(** X2.  [populateSchema] depends on the field list only through which of
    the eight recognised names it contains: order, repetitions and
    unrecognised names make no difference. *)
Theorem populateSchema_fields_as_set (attr : string)
    (fields fields' : list string) :
  (∀ field, field ∈ defaultFields → field ∈ fields ↔ field ∈ fields') →
  populateSchema Name State attr fields
  = populateSchema Name State attr fields'.
Proof.
  intros Hsame.
  destruct (schema.TypeOf State attr) as [typ|] eqn:Htyp.
  - rewrite !(populateSchema_spec attr typ) by done.
    assert (Hb : ∀ field, field ∈ defaultFields →
              bool_decide (field ∈ fields) = bool_decide (field ∈ fields'))
      by (intros field Hf; apply bool_decide_ext, Hsame, Hf).
    rewrite !Hb; [done|unfold defaultFields; repeat constructor..].
  - unfold populateSchema. by rewrite Htyp.
Qed.

(** X3.  The nodes of [getSchema] name, in order and with repetitions, the
    candidate predicates that this node serves and that the catalog defines;
    the candidates are the request's predicates, or all predicates of the
    catalog when the request names none. *)
Theorem getSchema_predicates (s : pb.SchemaRequest) :
  api.Predicate <$> pb.Schema (getSchema Name State groups s).1
  = filter (λ attr, ServesTablet groups attr = true ∧
                    is_Some (schema.TypeOf State attr))
      (match pb.Predicates s with
       | [] => schema.Predicates State
       | predicates => predicates
       end).
Proof.
  unfold getSchema. simpl. rewrite getSchema_loop_spec. simpl.
  set (fields := if bool_decide (0 < length (pb.Fields s))
                 then pb.Fields s else defaultFields).
  assert (Hnames : ∀ predicates : list string,
            api.Predicate
              <$> omap (λ attr, populateSchema Name State attr fields)
                    (filter (λ attr, ServesTablet groups attr = true)
                       predicates)
            = filter (λ attr, ServesTablet groups attr = true ∧
                              is_Some (schema.TypeOf State attr))
                predicates).
  { induction predicates as [|attr rest IH]; [done|].
    rewrite !filter_cons.
    destruct (ServesTablet groups attr) eqn:Hserved; simpl.
    - destruct (populateSchema Name State attr fields) as [n|] eqn:Hpop.
      + pose proof (populateSchema_Some_Predicate _ _ _ _ _ Hpop) as Hp.
        unfold populateSchema in Hpop.
        destruct (schema.TypeOf State attr) eqn:Htyp; [|done].
        rewrite decide_True by eauto. simpl. f_equal; [done|apply IH].
      + unfold populateSchema in Hpop.
        destruct (schema.TypeOf State attr) eqn:Htyp; [done|].
        destruct (decide _) as [Hd|_]; [|apply IH].
        by destruct Hd as [_ [? ?]].
    - apply IH. }
  destruct (pb.Predicates s) as [|p0 ps]; apply Hnames.
Qed.

(** X4.  [getSchema] on the concatenation of two non-empty predicate lists
    returns the nodes of the first list followed by those of the second. *)
Theorem getSchema_app (gid gid1 gid2 : N) (ps1 ps2 fields : list string) :
  ps1 ≠ [] → ps2 ≠ [] →
  pb.Schema (getSchema Name State groups
               (pb.mkSchemaRequest gid (ps1 ++ ps2) fields)).1
  = pb.Schema (getSchema Name State groups
                 (pb.mkSchemaRequest gid1 ps1 fields)).1
    ++ pb.Schema (getSchema Name State groups
                    (pb.mkSchemaRequest gid2 ps2 fields)).1.
Proof.
  intros H1 H2. unfold getSchema. simpl.
  assert (Hpos : ∀ l : list string,
            l ≠ [] → bool_decide (0 < length l) = true).
  { intros [|x l] Hl; [done|]. apply bool_decide_eq_true_2. simpl. lia. }
  assert (H12 : ps1 ++ ps2 ≠ []) by (by destruct ps1).
  rewrite (Hpos _ H12), (Hpos _ H1), (Hpos _ H2).
  rewrite !getSchema_loop_spec. simpl.
  by rewrite filter_app, omap_app.
Qed.

End projector_fields.

(** ** More on the request partitioner *)

Section partitioner_maps.

Context {TypeID Pool : Type}.
Variable Name : TypeID → string.
Variable groups : groupi Pool.

(** On the fresh map every entry sits under its own group id and carries
    the request's fields, with or without named predicates. *)
Lemma addToSchemaMap_fresh_entry schema gid s :
  addToSchemaMap groups ∅ schema !! gid = Some s →
  pb.GroupId s = gid ∧ pb.Fields s = pb.Fields schema.
Proof.
  unfold addToSchemaMap. case_bool_decide as Hlen.
  - rewrite addPredicates_lookup, lookup_empty.
    destruct (owned groups gid (pb.Predicates schema)); [done|].
    by intros [= <-].
  - rewrite addGroups_lookup, addPredicates_lookup, lookup_empty.
    destruct (owned groups gid (pb.Predicates schema)).
    + case_decide; [|done]. by intros [= <-].
    + by intros [= <-].
Qed.

(** X6.  On a map that already has a sub-request for a group,
    [addToSchemaMap] keeps that sub-request's group id and fields (the new
    request's fields are not applied to it) and appends to its predicates
    those of the new request that belong to the group, in request order. *)
Theorem addToSchemaMap_extends_entry
    (schemaMap : gmap N pb.SchemaRequest) (schema : pb.SchemaRequest)
    (gid : N) (s : pb.SchemaRequest) :
  schemaMap !! gid = Some s →
  addToSchemaMap groups schemaMap schema !! gid
  = Some (pb.mkSchemaRequest (pb.GroupId s)
            (pb.Predicates s ++ owned groups gid (pb.Predicates schema))
            (pb.Fields s)).
Proof.
  intros Hs. unfold addToSchemaMap.
  assert (Hfirst :
    addPredicates groups schemaMap (pb.Fields schema) (pb.Predicates schema)
      !! gid
    = Some (pb.mkSchemaRequest (pb.GroupId s)
              (pb.Predicates s ++ owned groups gid (pb.Predicates schema))
              (pb.Fields s))).
  { rewrite addPredicates_lookup, Hs. simpl.
    destruct (owned groups gid (pb.Predicates schema)); [|done].
    destruct s. simpl. by rewrite app_nil_r. }
  case_bool_decide; [done|]. by rewrite addGroups_lookup, Hfirst.
Qed.

(** X7.  The keys of the fresh map after [addToSchemaMap] are the groups
    that [BelongsTo] answers for the named predicates; for a request without
    predicates they are the known groups other than 0. *)
Theorem addToSchemaMap_dom (schema : pb.SchemaRequest) :
  dom (addToSchemaMap groups ∅ schema)
  = match pb.Predicates schema with
    | [] => list_to_set (filter (λ gid, gid ≠ 0%N) (KnownGroups groups))
    | predicates => list_to_set (BelongsTo groups <$> predicates)
    end.
Proof.
  apply set_eq. intros gid. rewrite elem_of_dom.
  destruct (pb.Predicates schema) as [|p0 ps] eqn:Hps.
  - rewrite elem_of_list_to_set, list_elem_of_filter.
    unfold addToSchemaMap. rewrite Hps. simpl.
    rewrite addGroups_lookup, lookup_empty.
    case_decide as Hd; split; [tauto|eauto|by intros [? ?]|tauto].
  - rewrite elem_of_list_to_set, list_elem_of_fmap.
    rewrite addToSchemaMap_named_lookup by (by rewrite Hps).
    rewrite Hps. split.
    + destruct (owned groups gid (p0 :: ps)) as [|attr l] eqn:Hown;
        [by intros [? ?]|].
      intros _. exists attr.
      assert (Hin : attr ∈ owned groups gid (p0 :: ps))
        by (rewrite Hown; apply elem_of_cons; by left).
      apply elem_of_owned in Hin as [? ?]. done.
    + intros (attr & -> & Hin).
      assert (Hown : attr ∈ owned groups (BelongsTo groups attr) (p0 :: ps))
        by by apply elem_of_owned.
      destruct (owned groups (BelongsTo groups attr) (p0 :: ps));
        [by apply elem_of_nil in Hown|eauto].
Qed.

(** X8.  A sub-request of the fresh map is addressed to the group it is
    filed under: under a live context, [grpcWorker.Schema] of a node that
    serves that group answers it with [getSchema], and a node that does not
    serve the group refuses it with the error that names the group. *)
Theorem subrequest_answered_by_its_group (schema : pb.SchemaRequest)
    (gid : N) (s : pb.SchemaRequest) (ctx : Context)
    (State' : schema.state TypeID) (groups' : groupi Pool) :
  addToSchemaMap groups ∅ schema !! gid = Some s →
  Err ctx = None →
  Schema Name State' groups' ctx s
  = if ServesGroup groups' gid then getSchema Name State' groups' s
    else (emptySchemaResult, Some (Errorf_group gid)).
Proof.
  intros Hs Hctx. apply addToSchemaMap_fresh_entry in Hs as [Hgid _].
  unfold Schema. rewrite Hctx, Hgid.
  by destruct (ServesGroup groups' gid).
Qed.

End partitioner_maps.

(** ** More on the scatter/gather coordinator *)

Section coordinator_runs.

Context {TypeID Pool : Type}.
Variable Name : TypeID → string.
Variable State : schema.state TypeID.
Variable groups : groupi Pool.
Variable HealthCheck : option error.
Variable remoteSchema : Pool → pb.SchemaRequest → pb.SchemaResult + error.
Variable range : gmap N pb.SchemaRequest → list (N * pb.SchemaRequest).

Hypothesis range_perm :
  ∀ schemaMap, range schemaMap ≡ₚ map_to_list schemaMap.

Local Abbreviation sent := (task Name State groups remoteSchema).
Local Abbreviation resolve :=
  (GetSchemaOverNetwork Name State groups HealthCheck remoteSchema range).

Lemma sent_keys (entries : list (N * pb.SchemaRequest)) :
  (sent <$> entries).*1 = entries.*1.
Proof. rewrite <- list_fmap_compose. by apply list_fmap_ext. Qed.

Lemma range_keys_NoDup schemaMap : NoDup (range schemaMap).*1.
Proof. rewrite range_perm. apply NoDup_fst_map_to_list. Qed.

Lemma range_lookup schemaMap gid s :
  (gid, s) ∈ range schemaMap ↔ schemaMap !! gid = Some s.
Proof. rewrite range_perm. apply elem_of_map_to_list. Qed.

(** A healthy call on a map without group 0 starts every task and enters
    the aggregation loop. *)
Lemma GetSchemaOverNetwork_served schema sched :
  HealthCheck = None →
  addToSchemaMap groups ∅ schema !! 0%N = None →
  let schemaMap := addToSchemaMap groups ∅ schema in
  resolve schema sched
  = (gather (size schemaMap) (sent <$> range schemaMap) sched [],
     (range schemaMap).*1).
Proof.
  intros Hhealth Hzero schemaMap. unfold GetSchemaOverNetwork.
  rewrite Hhealth. fold schemaMap.
  rewrite dispatch_served.
  - simpl. by rewrite sent_keys.
  - intros Hin. apply (unserved_visited range range_perm) in Hin.
    fold schemaMap in Hzero. rewrite Hzero in Hin. by destruct Hin.
Qed.

(** The three ways a call can go, with the tasks it starts. *)
Lemma GetSchemaOverNetwork_cases schema sched :
  let schemaMap := addToSchemaMap groups ∅ schema in
  (∃ e, HealthCheck = Some e ∧ resolve schema sched = (Return [] (Some e), []))
  ∨ (∃ before s0 after,
       (range schemaMap = before ++ (0%N, s0) :: after) ∧
       (0%N ∉ before.*1) ∧
       resolve schema sched
       = (Return [] (Some errUnservedTablet), before.*1))
  ∨ ((0%N ∉ (range schemaMap).*1) ∧
     resolve schema sched
     = (gather (size schemaMap) (sent <$> range schemaMap) sched [],
        (range schemaMap).*1)).
Proof.
  intros schemaMap. unfold GetSchemaOverNetwork.
  destruct HealthCheck as [e|]; [left; eauto|right].
  fold schemaMap.
  destruct (decide (0%N ∈ (range schemaMap).*1)) as [Hzero|Hzero].
  - left.
    destruct (first_unserved _ Hzero) as (before & s0 & after & Hsplit & Hnot).
    exists before, s0, after. split; [done|]. split; [done|].
    rewrite Hsplit, dispatch_unserved by done. simpl. by rewrite sent_keys.
  - right. split; [done|]. rewrite dispatch_served by done. simpl.
    by rewrite sent_keys.
Qed.

Lemma pending_messages schemaMap :
  length (sent <$> range schemaMap) = size schemaMap ∧
  Forall (λ t, well_formed t.2) (sent <$> range schemaMap).
Proof.
  split.
  - by rewrite length_fmap, range_perm, length_map_to_list.
  - apply Forall_fmap, Forall_forall. intros [gid s] _.
    apply getSchemaOverNetwork_well_formed.
Qed.

(** The loop over messages without error: it returns the context's error
    when the context is done before the last message ... *)
Lemma gather_cancelled n pending ks e post schemaNodes :
  length pending = n →
  Forall (λ t, err t.2 = None ∧ well_formed t.2) pending →
  length ks < n →
  gather n pending ((Recv <$> ks) ++ Done e :: post) schemaNodes
  = Return [] (Some e).
Proof.
  revert pending ks schemaNodes.
  induction n as [|n IH]; intros pending ks schemaNodes Hlen Hok Hks;
    [lia|].
  destruct ks as [|k ks]; [done|]. cbn [fmap list_fmap app gather].
  set (i := (k `mod` length pending)%nat).
  assert (Hi : (i < length pending)%nat)
    by (apply Nat.mod_upper_bound; lia).
  destruct (lookup_lt_is_Some_2 _ _ Hi) as [[gid r] Hlook].
  rewrite Hlook.
  pose proof (delete_Permutation _ _ _ Hlook) as Hperm.
  rewrite Hperm in Hok. apply Forall_cons in Hok as [[Herr Hwf] Hok].
  simpl in Herr, Hwf. rewrite Herr. destruct (Hwf Herr) as [res ->].
  apply IH; [|done|simpl in Hks; lia].
  apply Permutation_length in Hperm. simpl in Hperm. lia.
Qed.

(** ... and all the nodes once every message has been delivered. *)
Lemma gather_delivered n pending ks post schemaNodes :
  length pending = n →
  Forall (λ t, err t.2 = None ∧ well_formed t.2) pending →
  length ks = n →
  ∃ nodes,
    gather n pending ((Recv <$> ks) ++ post) schemaNodes = Return nodes None.
Proof.
  revert pending ks schemaNodes.
  induction n as [|n IH]; intros pending ks schemaNodes Hlen Hok Hks;
    [simpl; eauto|].
  destruct ks as [|k ks]; [done|]. cbn [fmap list_fmap app gather].
  set (i := (k `mod` length pending)%nat).
  assert (Hi : (i < length pending)%nat)
    by (apply Nat.mod_upper_bound; lia).
  destruct (lookup_lt_is_Some_2 _ _ Hi) as [[gid r] Hlook].
  rewrite Hlook.
  pose proof (delete_Permutation _ _ _ Hlook) as Hperm.
  rewrite Hperm in Hok. apply Forall_cons in Hok as [[Herr Hwf] Hok].
  simpl in Herr, Hwf. rewrite Herr. destruct (Hwf Herr) as [res ->].
  apply IH; [|done|simpl in Hks; lia].
  apply Permutation_length in Hperm. simpl in Hperm. lia.
Qed.

(** The loop returns an error as soon as the context is done while a
    message is still awaited, whatever the messages hold. *)
Lemma gather_done n pending pre e post schemaNodes :
  length pending = n →
  Forall (λ t, well_formed t.2) pending →
  length pre < n →
  ∃ e', gather n pending (pre ++ Done e :: post) schemaNodes
        = Return [] (Some e').
Proof.
  revert pending pre schemaNodes.
  induction n as [|n IH]; intros pending pre schemaNodes Hlen Hwf Hpre;
    [lia|].
  destruct pre as [|[k|e0] pre]; [simpl; eauto| |simpl; eauto].
  cbn [app gather].
  set (i := (k `mod` length pending)%nat).
  assert (Hi : (i < length pending)%nat)
    by (apply Nat.mod_upper_bound; lia).
  destruct (lookup_lt_is_Some_2 _ _ Hi) as [[gid r] Hlook].
  rewrite Hlook.
  pose proof (delete_Permutation _ _ _ Hlook) as Hperm.
  rewrite Hperm in Hwf. apply Forall_cons in Hwf as [Hr Hwf].
  simpl in Hr. destruct (err r) as [e1|] eqn:Herr; [eauto|].
  destruct (Hr Herr) as [res ->].
  apply IH; [|done|simpl in Hpre; lia].
  apply Permutation_length in Hperm. simpl in Hperm. lia.
Qed.

(** The messages of a map whose tasks all succeed. *)
Lemma pending_without_error schemaMap :
  (∀ gid s, schemaMap !! gid = Some s →
     err (getSchemaOverNetwork Name State groups remoteSchema gid s) = None) →
  Forall (λ t, err t.2 = None ∧ well_formed t.2) (sent <$> range schemaMap).
Proof.
  intros Hok. apply Forall_fmap, Forall_forall. intros [gid s] Hin.
  apply range_lookup in Hin. split; [by apply Hok|].
  apply getSchemaOverNetwork_well_formed.
Qed.

(** A call that returns nodes returns those of all entries, up to order. *)
Lemma GetSchemaOverNetwork_nodes schema sched nodes :
  (resolve schema sched).1 = Return nodes None →
  nodes ≡ₚ map_to_list (addToSchemaMap groups ∅ schema)
           ≫= (λ entry, nodes_of (sent entry).2).
Proof.
  destruct (GetSchemaOverNetwork_cases schema sched)
    as [(e & _ & ->)|[(before & s0 & after & _ & _ & ->)|[_ ->]]];
    [done|done|]. simpl.
  destruct (pending_messages (addToSchemaMap groups ∅ schema))
    as [Hlen Hwf].
  pose proof (gather_spec _ _ sched [] Hlen Hwf) as Hspec.
  intros Hret. rewrite Hret in Hspec.
  destruct Hspec as (arrived & Harr & _ & ->). simpl.
  by rewrite Harr, list_fmap_bind, range_perm.
Qed.

(** X9.  Whatever the request, the order of the map iteration and the
    schedule, the tasks that [GetSchemaOverNetwork] starts go to distinct
    groups that have an entry in the partition map, and never to
    group 0. *)
Theorem GetSchemaOverNetwork_started_tasks (schema : pb.SchemaRequest)
    (sched : list event) :
  let started := (resolve schema sched).2 in
  (0%N ∉ started) ∧ NoDup started ∧
  ∀ gid, gid ∈ started →
    is_Some (addToSchemaMap groups ∅ schema !! gid).
Proof.
  assert (Hkey : ∀ (l : list (N * pb.SchemaRequest)) gid,
            l ⊆ range (addToSchemaMap groups ∅ schema) → gid ∈ l.*1 →
            is_Some (addToSchemaMap groups ∅ schema !! gid)).
  { intros l gid Hsub ([gid' s] & -> & Hin)%list_elem_of_fmap_1.
    apply Hsub, range_lookup in Hin. eauto. }
  pose proof (range_keys_NoDup (addToSchemaMap groups ∅ schema)) as Hnd.
  destruct (GetSchemaOverNetwork_cases schema sched)
    as [(e & _ & ->)|[(before & s0 & after & Hsplit & Hnot & ->)|[Hnot ->]]];
    simpl.
  - split; [apply not_elem_of_nil|]. split; [constructor|].
    intros gid Hin. by apply elem_of_nil in Hin.
  - split; [done|]. rewrite Hsplit, fmap_app in Hnd.
    apply NoDup_app in Hnd as (Hnd & _ & _). split; [done|].
    intros gid. apply Hkey. rewrite Hsplit. intros x Hx.
    apply elem_of_app. by left.
  - split; [done|]. split; [done|]. intros gid. by apply Hkey.
Qed.

(** X10.  A healthy call on a partition map without group 0 starts exactly
    one task for every entry of the map. *)
Theorem GetSchemaOverNetwork_one_task_per_entry (schema : pb.SchemaRequest)
    (sched : list event) :
  HealthCheck = None →
  addToSchemaMap groups ∅ schema !! 0%N = None →
  (resolve schema sched).2
  ≡ₚ (map_to_list (addToSchemaMap groups ∅ schema)).*1.
Proof.
  intros Hhealth Hzero.
  rewrite (GetSchemaOverNetwork_served schema sched Hhealth Hzero). simpl.
  by rewrite range_perm.
Qed.

(** X11.  If the task of one entry of the partition map sends an error (for
    instance [ErrNoConnection] of a group without leader), the call never
    returns a node list: it returns an error, or waits. *)
Theorem GetSchemaOverNetwork_fails_on_task_error (schema : pb.SchemaRequest)
    (sched : list event) (gid : N) (s : pb.SchemaRequest) (e : error) :
  addToSchemaMap groups ∅ schema !! gid = Some s →
  err (getSchemaOverNetwork Name State groups remoteSchema gid s) = Some e →
  ∀ nodes, (resolve schema sched).1 ≠ Return nodes None.
Proof.
  intros Hs Herr nodes.
  destruct (GetSchemaOverNetwork_cases schema sched)
    as [(e0 & _ & ->)|[(before & s0 & after & _ & _ & ->)|[_ ->]]];
    [done|done|]. simpl.
  destruct (pending_messages (addToSchemaMap groups ∅ schema))
    as [Hlen Hwf].
  pose proof (gather_spec _ _ sched [] Hlen Hwf) as Hspec.
  intros Hret. rewrite Hret in Hspec.
  destruct Hspec as (arrived & Harr & Hok & _).
  rewrite Harr in Hok.
  apply range_lookup in Hs.
  apply (list_elem_of_fmap_2 sent) in Hs.
  pose proof (proj1 (Forall_forall _ _) Hok _ Hs) as Hnone.
  simpl in Hnone. congruence.
Qed.

(** X12.  In a healthy call on a partition map without group 0 whose tasks
    all succeed, a context that is done before the last message has been
    received makes the call return the context's error and no node, with
    all tasks started. *)
Theorem GetSchemaOverNetwork_cancelled_before_last
    (schema : pb.SchemaRequest) (ks : list nat) (e : error)
    (post : list event) :
  let schemaMap := addToSchemaMap groups ∅ schema in
  HealthCheck = None →
  schemaMap !! 0%N = None →
  (∀ gid s, schemaMap !! gid = Some s →
     err (getSchemaOverNetwork Name State groups remoteSchema gid s)
     = None) →
  length ks < size schemaMap →
  resolve schema ((Recv <$> ks) ++ Done e :: post)
  = (Return [] (Some e), (range schemaMap).*1).
Proof.
  intros schemaMap Hhealth Hzero Hok Hks.
  rewrite (GetSchemaOverNetwork_served schema _ Hhealth Hzero).
  fold schemaMap. f_equal.
  apply gather_cancelled; [apply pending_messages| |done].
  by apply pending_without_error.
Qed.

(** X13.  Whatever the messages hold, a context that is done at a [select]
    reached while fewer messages have been received than the map has
    entries makes the call return an error and no node. *)
Theorem GetSchemaOverNetwork_done_is_error (schema : pb.SchemaRequest)
    (pre : list event) (e : error) (post : list event) :
  length pre < size (addToSchemaMap groups ∅ schema) →
  ∃ e', (resolve schema (pre ++ Done e :: post)).1 = Return [] (Some e').
Proof.
  intros Hpre.
  destruct (GetSchemaOverNetwork_cases schema (pre ++ Done e :: post))
    as [(e0 & _ & ->)|[(before & s0 & after & _ & _ & ->)|[_ ->]]];
    [simpl; eauto..|]. simpl.
  destruct (pending_messages (addToSchemaMap groups ∅ schema))
    as [Hlen Hwf].
  by apply gather_done.
Qed.

(** X14.  In a healthy call on a partition map without group 0 whose tasks
    all succeed, once the scheduler has delivered as many messages as the
    map has entries the call returns a node list without error. *)
Theorem GetSchemaOverNetwork_returns_when_delivered
    (schema : pb.SchemaRequest) (ks : list nat) (post : list event) :
  let schemaMap := addToSchemaMap groups ∅ schema in
  HealthCheck = None →
  schemaMap !! 0%N = None →
  (∀ gid s, schemaMap !! gid = Some s →
     err (getSchemaOverNetwork Name State groups remoteSchema gid s)
     = None) →
  length ks = size schemaMap →
  ∃ nodes,
    resolve schema ((Recv <$> ks) ++ post)
    = (Return nodes None, (range schemaMap).*1).
Proof.
  intros schemaMap Hhealth Hzero Hok Hks.
  rewrite (GetSchemaOverNetwork_served schema _ Hhealth Hzero).
  fold schemaMap.
  destruct (gather_delivered (size schemaMap) (sent <$> range schemaMap)
              ks post []) as [nodes Hnodes];
    [apply pending_messages|by apply pending_without_error|done|].
  exists nodes. by rewrite Hnodes.
Qed.

(** X16.  A healthy call for a request without predicates, when no group
    other than 0 is known, starts no task and returns the empty list without
    error, even if the context is already done. *)
Theorem GetSchemaOverNetwork_no_group (schema : pb.SchemaRequest)
    (sched : list event) :
  HealthCheck = None →
  pb.Predicates schema = [] →
  Forall (λ gid, gid = 0%N) (KnownGroups groups) →
  resolve schema sched = (Return [] None, []).
Proof.
  intros Hhealth Hnil Hknown.
  assert (Hempty : addToSchemaMap groups ∅ schema = ∅).
  { apply map_eq. intros gid. unfold addToSchemaMap. rewrite Hnil. simpl.
    rewrite addGroups_lookup, !lookup_empty.
    case_decide as Hd; [|done]. destruct Hd as [Hin Hnz].
    by destruct (Hnz (proj1 (Forall_forall _ _) Hknown _ Hin)). }
  rewrite (GetSchemaOverNetwork_served schema sched Hhealth)
    by (by rewrite Hempty).
  rewrite Hempty, map_size_empty.
  assert (Hrange : range ∅ = [])
    by (apply Permutation_nil_r; by rewrite range_perm, map_to_list_empty).
  by rewrite Hrange.
Qed.

(** X17.  For a request that names predicates, the task of a group that this
    node serves sends no error, and its nodes name only predicates of the
    request that belong to that group, that this node serves and that the
    catalog defines. *)
Theorem local_task_names_owned_predicates (schema : pb.SchemaRequest)
    (gid : N) (s : pb.SchemaRequest) :
  pb.Predicates schema ≠ [] →
  addToSchemaMap groups ∅ schema !! gid = Some s →
  ServesGroup groups gid = true →
  err (getSchemaOverNetwork Name State groups remoteSchema gid s) = None ∧
  ∀ node,
    node ∈ nodes_of
             (getSchemaOverNetwork Name State groups remoteSchema gid s) →
    api.Predicate node ∈ pb.Predicates schema ∧
    BelongsTo groups (api.Predicate node) = gid ∧
    ServesTablet groups (api.Predicate node) = true ∧
    is_Some (schema.TypeOf State (api.Predicate node)).
Proof.
  intros Hne Hs Hserves.
  rewrite addToSchemaMap_named_lookup in Hs by done.
  destruct (owned groups gid (pb.Predicates schema)) as [|p0 ps] eqn:Hown;
    [done|].
  injection Hs as <-.
  unfold getSchemaOverNetwork. rewrite Hserves. split; [done|].
  intros node. unfold nodes_of, getSchema.
  cbn [result pb.Schema pb.Predicates pb.Fields].
  rewrite (bool_decide_eq_true_2 (0 < length (p0 :: ps))) by (simpl; lia).
  rewrite getSchema_loop_spec, app_nil_l.
  intros (attr & Hattr & Hpop)%list_elem_of_omap.
  apply list_elem_of_filter in Hattr as [Hserved Hattr].
  rewrite <- Hown in Hattr. apply elem_of_owned in Hattr as [Hin Hgid].
  rewrite (populateSchema_Some_Predicate _ _ _ _ _ Hpop).
  split; [done|]. split; [done|]. split; [done|].
  unfold populateSchema in Hpop.
  destruct (schema.TypeOf State attr); [eauto|done].
Qed.

End coordinator_runs.

(** X15.  Two calls for the same request that both return a node list
    return the same nodes up to order, whatever the two iteration orders and
    the two schedules. *)
Theorem GetSchemaOverNetwork_nodes_up_to_order {TypeID Pool : Type}
    (Name : TypeID → string) (State : schema.state TypeID)
    (groups : groupi Pool) (HealthCheck : option error)
    (remoteSchema : Pool → pb.SchemaRequest → pb.SchemaResult + error)
    (range1 range2 : gmap N pb.SchemaRequest → list (N * pb.SchemaRequest))
    (schema : pb.SchemaRequest) (sched1 sched2 : list event)
    (nodes1 nodes2 : list api.SchemaNode) :
  (∀ schemaMap, range1 schemaMap ≡ₚ map_to_list schemaMap) →
  (∀ schemaMap, range2 schemaMap ≡ₚ map_to_list schemaMap) →
  (GetSchemaOverNetwork Name State groups HealthCheck remoteSchema range1
     schema sched1).1 = Return nodes1 None →
  (GetSchemaOverNetwork Name State groups HealthCheck remoteSchema range2
     schema sched2).1 = Return nodes2 None →
  nodes1 ≡ₚ nodes2.
Proof.
  intros Hr1 Hr2 H1 H2.
  rewrite (GetSchemaOverNetwork_nodes _ _ _ _ _ _ Hr1 _ _ _ H1).
  by rewrite (GetSchemaOverNetwork_nodes _ _ _ _ _ _ Hr2 _ _ _ H2).
Qed.

(** ** The further properties at the two-group cluster *)

Lemma populateSchema_requested_fields_witness :
  schema.TypeOf exState "name" = Some StringID ∧
  populateSchema exName exState "name" ["lang"; "tokenizer"; "lang"]
  = Some (api.mkSchemaNode "name" "" false ["exact"; "term"] false false
            false false true).
Proof.
  split; [reflexivity|].
  exact (populateSchema_requested_fields exName exState "name" StringID
           ["lang"; "tokenizer"; "lang"] eq_refl).
Defined.

Lemma populateSchema_fields_as_set_witness :
  (∀ field, field ∈ defaultFields →
     field ∈ ["lang"; "colour"; "type"; "lang"] ↔ field ∈ ["type"; "lang"]) ∧
  populateSchema exName exState "name" ["lang"; "colour"; "type"; "lang"]
  = populateSchema exName exState "name" ["type"; "lang"].
Proof.
  assert (Hsame : ∀ field, field ∈ defaultFields →
            field ∈ ["lang"; "colour"; "type"; "lang"]
            ↔ field ∈ ["type"; "lang"]).
  { intros field Hfield. unfold defaultFields in Hfield.
    repeat (apply elem_of_cons in Hfield as [->|Hfield]);
      [..|by apply elem_of_nil in Hfield];
      split; intros Hin;
      repeat (apply elem_of_cons in Hin as [Hin|Hin]; [try discriminate|]);
      try (by apply elem_of_nil in Hin); repeat constructor. }
  split; [exact Hsame|].
  exact (populateSchema_fields_as_set exName exState "name" _ _ Hsame).
Defined.

Lemma getSchema_app_witness :
  ["name"] ≠ [] ∧ ["ghost"; "name"] ≠ [] ∧
  pb.Schema (getSchema exName exState exGroups
               (pb.mkSchemaRequest 1 (["name"] ++ ["ghost"; "name"])
                  ["type"])).1
  = pb.Schema (getSchema exName exState exGroups
                 (pb.mkSchemaRequest 1 ["name"] ["type"])).1
    ++ pb.Schema (getSchema exName exState exGroups
                    (pb.mkSchemaRequest 1 ["ghost"; "name"] ["type"])).1.
Proof.
  assert (H1 : ["name"] ≠ []) by discriminate.
  assert (H2 : ["ghost"; "name"] ≠ []) by discriminate.
  split; [exact H1|]. split; [exact H2|].
  exact (getSchema_app exName exState exGroups 1 1 1 _ _ ["type"] H1 H2).
Defined.

Lemma addToSchemaMap_extends_entry_witness :
  ({[1%N := pb.mkSchemaRequest 1 ["friend"] ["lang"]]}
     : gmap N pb.SchemaRequest) !! 1%N
  = Some (pb.mkSchemaRequest 1 ["friend"] ["lang"]) ∧
  addToSchemaMap exGroups {[1%N := pb.mkSchemaRequest 1 ["friend"] ["lang"]]}
    exRequest !! 1%N
  = Some (pb.mkSchemaRequest 1 (["friend"] ++ owned exGroups 1 ["name"; "age"])
            ["lang"]).
Proof.
  assert (Hs : ({[1%N := pb.mkSchemaRequest 1 ["friend"] ["lang"]]}
                  : gmap N pb.SchemaRequest) !! 1%N
               = Some (pb.mkSchemaRequest 1 ["friend"] ["lang"]))
    by apply lookup_singleton_eq.
  split; [exact Hs|].
  exact (addToSchemaMap_extends_entry exGroups _ exRequest 1%N _ Hs).
Defined.

Lemma subrequest_answered_by_its_group_witness :
  addToSchemaMap exGroups ∅ exRequest !! 2%N
  = Some (pb.mkSchemaRequest 2 ["age"] ["type"; "index"]) ∧
  Err (mkContext None) = None ∧
  Schema exName exState exGroups2 (mkContext None)
    (pb.mkSchemaRequest 2 ["age"] ["type"; "index"])
  = getSchema exName exState exGroups2
      (pb.mkSchemaRequest 2 ["age"] ["type"; "index"]) ∧
  Schema exName exState exGroups (mkContext None)
    (pb.mkSchemaRequest 2 ["age"] ["type"; "index"])
  = (emptySchemaResult, Some (Errorf_group 2)).
Proof.
  assert (Hs : addToSchemaMap exGroups ∅ exRequest !! 2%N
               = Some (pb.mkSchemaRequest 2 ["age"] ["type"; "index"]))
    by (vm_compute; reflexivity).
  split; [exact Hs|]. split; [reflexivity|]. split.
  - exact (subrequest_answered_by_its_group exName exGroups exRequest 2%N _
             (mkContext None) exState exGroups2 Hs eq_refl).
  - exact (subrequest_answered_by_its_group exName exGroups exRequest 2%N _
             (mkContext None) exState exGroups Hs eq_refl).
Defined.

Lemma GetSchemaOverNetwork_started_tasks_witness :
  (∀ schemaMap, rangeFwd schemaMap ≡ₚ map_to_list schemaMap) ∧
  (0%N ∉ [1%N]) ∧ NoDup [1%N] ∧
  ∀ gid, gid ∈ [1%N] → is_Some (addToSchemaMap exGroups ∅ exUnrouted !! gid).
Proof.
  split; [exact rangeFwd_perm|].
  exact (GetSchemaOverNetwork_started_tasks exName exState exGroups None
           exRemote rangeFwd rangeFwd_perm exUnrouted [Recv 0]).
Defined.

Lemma GetSchemaOverNetwork_one_task_per_entry_witness :
  (∀ schemaMap, rangeRev schemaMap ≡ₚ map_to_list schemaMap) ∧
  @None error = None ∧
  addToSchemaMap exGroups ∅ exRequest !! 0%N = None ∧
  [1%N; 2%N] ≡ₚ (map_to_list (addToSchemaMap exGroups ∅ exRequest)).*1.
Proof.
  assert (Hzero : addToSchemaMap exGroups ∅ exRequest !! 0%N = None)
    by (vm_compute; reflexivity).
  split; [exact rangeRev_perm|]. split; [reflexivity|].
  split; [exact Hzero|].
  exact (GetSchemaOverNetwork_one_task_per_entry exName exState exGroups
           None exRemote rangeRev rangeRev_perm exRequest [] eq_refl Hzero).
Defined.

Lemma GetSchemaOverNetwork_fails_on_task_error_witness :
  (∀ schemaMap, rangeFwd schemaMap ≡ₚ map_to_list schemaMap) ∧
  addToSchemaMap exGroupsNoLeader ∅ exRequest !! 2%N
  = Some (pb.mkSchemaRequest 2 ["age"] ["type"; "index"]) ∧
  err (getSchemaOverNetwork exName exState exGroupsNoLeader exRemote 2
         (pb.mkSchemaRequest 2 ["age"] ["type"; "index"]))
  = Some ErrNoConnection ∧
  ∀ nodes,
    (GetSchemaOverNetwork exName exState exGroupsNoLeader None exRemote
       rangeFwd exRequest [Recv 1; Recv 0]).1 ≠ Return nodes None.
Proof.
  assert (Hs : addToSchemaMap exGroupsNoLeader ∅ exRequest !! 2%N
               = Some (pb.mkSchemaRequest 2 ["age"] ["type"; "index"]))
    by (vm_compute; reflexivity).
  split; [exact rangeFwd_perm|]. split; [exact Hs|].
  split; [reflexivity|].
  exact (GetSchemaOverNetwork_fails_on_task_error exName exState
           exGroupsNoLeader None exRemote rangeFwd rangeFwd_perm exRequest
           [Recv 1; Recv 0] 2%N _ ErrNoConnection Hs eq_refl).
Defined.

Lemma GetSchemaOverNetwork_cancelled_before_last_witness :
  (∀ schemaMap, rangeFwd schemaMap ≡ₚ map_to_list schemaMap) ∧
  @None error = None ∧
  addToSchemaMap exGroupsAll ∅ exRequest !! 0%N = None ∧
  (∀ gid s, addToSchemaMap exGroupsAll ∅ exRequest !! gid = Some s →
     err (getSchemaOverNetwork exName exState exGroupsAll exRemote gid s)
     = None) ∧
  length [1] < size (addToSchemaMap exGroupsAll ∅ exRequest) ∧
  GetSchemaOverNetwork exName exState exGroupsAll None exRemote rangeFwd
    exRequest ((Recv <$> [1]) ++ Done DeadlineExceeded :: [Recv 0])
  = (Return [] (Some DeadlineExceeded),
     (rangeFwd (addToSchemaMap exGroupsAll ∅ exRequest)).*1).
Proof.
  assert (Hzero : addToSchemaMap exGroupsAll ∅ exRequest !! 0%N = None)
    by (vm_compute; reflexivity).
  assert (Hok : ∀ gid s,
            addToSchemaMap exGroupsAll ∅ exRequest !! gid = Some s →
            err (getSchemaOverNetwork exName exState exGroupsAll exRemote
                   gid s) = None)
    by (intros gid s _; reflexivity).
  assert (Hsize : size (addToSchemaMap exGroupsAll ∅ exRequest) = 2)
    by (vm_compute; reflexivity).
  assert (Hks : length [1] < size (addToSchemaMap exGroupsAll ∅ exRequest))
    by (rewrite Hsize; simpl; lia).
  split; [exact rangeFwd_perm|]. split; [reflexivity|].
  split; [exact Hzero|]. split; [exact Hok|]. split; [exact Hks|].
  exact (GetSchemaOverNetwork_cancelled_before_last exName exState
           exGroupsAll None exRemote rangeFwd rangeFwd_perm exRequest [1]
           DeadlineExceeded [Recv 0] eq_refl Hzero Hok Hks).
Defined.

Lemma GetSchemaOverNetwork_done_is_error_witness :
  (∀ schemaMap, rangeFwd schemaMap ≡ₚ map_to_list schemaMap) ∧
  length [Recv 0] < size (addToSchemaMap exGroups ∅ exRequest) ∧
  ∃ e',
    (GetSchemaOverNetwork exName exState exGroups None exRemote rangeFwd
       exRequest ([Recv 0] ++ Done Canceled :: [])).1
    = Return [] (Some e').
Proof.
  assert (Hsize : size (addToSchemaMap exGroups ∅ exRequest) = 2)
    by (vm_compute; reflexivity).
  assert (Hpre : length [Recv 0] < size (addToSchemaMap exGroups ∅ exRequest))
    by (rewrite Hsize; simpl; lia).
  split; [exact rangeFwd_perm|]. split; [exact Hpre|].
  exact (GetSchemaOverNetwork_done_is_error exName exState exGroups None
           exRemote rangeFwd rangeFwd_perm exRequest [Recv 0] Canceled []
           Hpre).
Defined.

Lemma GetSchemaOverNetwork_returns_when_delivered_witness :
  (∀ schemaMap, rangeFwd schemaMap ≡ₚ map_to_list schemaMap) ∧
  @None error = None ∧
  addToSchemaMap exGroupsAll ∅ exRequest !! 0%N = None ∧
  (∀ gid s, addToSchemaMap exGroupsAll ∅ exRequest !! gid = Some s →
     err (getSchemaOverNetwork exName exState exGroupsAll exRemote gid s)
     = None) ∧
  length [5; 3] = size (addToSchemaMap exGroupsAll ∅ exRequest) ∧
  ∃ nodes,
    GetSchemaOverNetwork exName exState exGroupsAll None exRemote rangeFwd
      exRequest ((Recv <$> [5; 3]) ++ [Done Canceled])
    = (Return nodes None,
       (rangeFwd (addToSchemaMap exGroupsAll ∅ exRequest)).*1).
Proof.
  assert (Hzero : addToSchemaMap exGroupsAll ∅ exRequest !! 0%N = None)
    by (vm_compute; reflexivity).
  assert (Hok : ∀ gid s,
            addToSchemaMap exGroupsAll ∅ exRequest !! gid = Some s →
            err (getSchemaOverNetwork exName exState exGroupsAll exRemote
                   gid s) = None)
    by (intros gid s _; reflexivity).
  assert (Hks : length [5; 3] = size (addToSchemaMap exGroupsAll ∅ exRequest))
    by (vm_compute; reflexivity).
  split; [exact rangeFwd_perm|]. split; [reflexivity|].
  split; [exact Hzero|]. split; [exact Hok|]. split; [exact Hks|].
  exact (GetSchemaOverNetwork_returns_when_delivered exName exState
           exGroupsAll None exRemote rangeFwd rangeFwd_perm exRequest [5; 3]
           [Done Canceled] eq_refl Hzero Hok Hks).
Defined.

Lemma GetSchemaOverNetwork_nodes_up_to_order_witness :
  (∀ schemaMap, rangeFwd schemaMap ≡ₚ map_to_list schemaMap) ∧
  (∀ schemaMap, rangeRev schemaMap ≡ₚ map_to_list schemaMap) ∧
  (GetSchemaOverNetwork exName exState exGroups None exRemote rangeFwd
     exRequest [Recv 1; Recv 0]).1
  = Return
      [api.mkSchemaNode "name" "string" true [] false false false false false;
       api.mkSchemaNode "age" "int" false [] false false false false false]
      None ∧
  (GetSchemaOverNetwork exName exState exGroups None exRemote rangeRev
     exRequest [Recv 1; Recv 0]).1
  = Return
      [api.mkSchemaNode "age" "int" false [] false false false false false;
       api.mkSchemaNode "name" "string" true [] false false false false false]
      None ∧
  [api.mkSchemaNode "name" "string" true [] false false false false false;
   api.mkSchemaNode "age" "int" false [] false false false false false]
  ≡ₚ [api.mkSchemaNode "age" "int" false [] false false false false false;
      api.mkSchemaNode "name" "string" true [] false false false false false].
Proof.
  assert (H1 : (GetSchemaOverNetwork exName exState exGroups None exRemote
                  rangeFwd exRequest [Recv 1; Recv 0]).1
               = Return
                   [api.mkSchemaNode "name" "string" true [] false false
                      false false false;
                    api.mkSchemaNode "age" "int" false [] false false false
                      false false] None)
    by (vm_compute; reflexivity).
  assert (H2 : (GetSchemaOverNetwork exName exState exGroups None exRemote
                  rangeRev exRequest [Recv 1; Recv 0]).1
               = Return
                   [api.mkSchemaNode "age" "int" false [] false false false
                      false false;
                    api.mkSchemaNode "name" "string" true [] false false
                      false false false] None)
    by (vm_compute; reflexivity).
  split; [exact rangeFwd_perm|]. split; [exact rangeRev_perm|].
  split; [exact H1|]. split; [exact H2|].
  exact (GetSchemaOverNetwork_nodes_up_to_order exName exState exGroups None
           exRemote rangeFwd rangeRev exRequest _ _ _ _ rangeFwd_perm
           rangeRev_perm H1 H2).
Defined.

Lemma GetSchemaOverNetwork_no_group_witness :
  (∀ schemaMap, rangeFwd schemaMap ≡ₚ map_to_list schemaMap) ∧
  @None error = None ∧
  pb.Predicates (pb.mkSchemaRequest 0 [] ["type"]) = [] ∧
  Forall (λ gid, gid = 0%N) (KnownGroups exGroupsUnknown) ∧
  GetSchemaOverNetwork exName exState exGroupsUnknown None exRemote
    rangeFwd (pb.mkSchemaRequest 0 [] ["type"]) [Done Canceled]
  = (Return [] None, []).
Proof.
  assert (Hknown : Forall (λ gid, gid = 0%N) (KnownGroups exGroupsUnknown))
    by (repeat constructor).
  split; [exact rangeFwd_perm|]. split; [reflexivity|].
  split; [reflexivity|]. split; [exact Hknown|].
  exact (GetSchemaOverNetwork_no_group exName exState exGroupsUnknown None
           exRemote rangeFwd rangeFwd_perm (pb.mkSchemaRequest 0 [] ["type"])
           [Done Canceled] eq_refl eq_refl Hknown).
Defined.

Lemma local_task_names_owned_predicates_witness :
  pb.Predicates exRequest ≠ [] ∧
  addToSchemaMap exGroups ∅ exRequest !! 1%N
  = Some (pb.mkSchemaRequest 1 ["name"] ["type"; "index"]) ∧
  ServesGroup exGroups 1 = true ∧
  err (getSchemaOverNetwork exName exState exGroups exRemote 1
         (pb.mkSchemaRequest 1 ["name"] ["type"; "index"])) = None ∧
  ∀ node,
    node ∈ nodes_of
             (getSchemaOverNetwork exName exState exGroups exRemote 1
                (pb.mkSchemaRequest 1 ["name"] ["type"; "index"])) →
    api.Predicate node ∈ pb.Predicates exRequest ∧
    BelongsTo exGroups (api.Predicate node) = 1%N ∧
    ServesTablet exGroups (api.Predicate node) = true ∧
    is_Some (schema.TypeOf exState (api.Predicate node)).
Proof.
  assert (Hne : pb.Predicates exRequest ≠ []) by discriminate.
  assert (Hs : addToSchemaMap exGroups ∅ exRequest !! 1%N
               = Some (pb.mkSchemaRequest 1 ["name"] ["type"; "index"]))
    by (vm_compute; reflexivity).
  split; [exact Hne|]. split; [exact Hs|]. split; [reflexivity|].
  exact (local_task_names_owned_predicates exName exState exGroups exRemote
           exRequest 1%N _ Hne Hs eq_refl).
Defined.
